(** * Fast density clustering: the gradient graph, label propagation and
      stability merging of [fdc/fdc.py]

    The development embeds the graph part of the [FDC] class: arrays are
    lists read with [!!] and updated with [<[_:=_]>], every out-of-range
    read or write raises, densities and distances are rationals, and
    [np.linalg.norm] is a parameter of the development. *)

From Stdlib Require Import QArith Qminmax Qabs.
From stdpp Require Import base option list sorting relations gmap sets.

Open Scope Q_scope.
Open Scope Z_scope.
Open Scope nat_scope.

(** ** Exceptions and the result monad *)

Inductive exn : Set := IndexError | ValueError | RecursionError.

(** A computation raises, returns, or exhausts the fuel that bounds its
    [while True] loops ([OutOfFuel] is shown below never to occur). *)
Inductive result (A : Type) : Type :=
| Raise (e : exn)
| Ret (a : A)
| OutOfFuel.
Arguments Raise {A} e.
Arguments Ret {A} a.
Arguments OutOfFuel {A}.

#[global] Instance result_ret : MRet result := @Ret.
#[global] Instance result_bind : MBind result := λ A B f m,
  match m with Raise e => Raise e | Ret a => f a | OutOfFuel => OutOfFuel end.

Definition returns {A} (m : result A) : Prop := ∃ a, m = Ret a.

Fixpoint foldM {A B} (f : A → B → result A) (a : A) (l : list B) : result A :=
  match l with
  | [] => Ret a
  | b :: l => a' ← f a b; foldM f a' l
  end.

(** ** numpy primitives *)

(** [a[i]] for a non-negative index. *)
Definition getitem {A} (a : list A) (i : nat) : result A :=
  match a !! i with Some x => Ret x | None => Raise IndexError end.

(** [a[i] = x] for a non-negative index. *)
Definition setitem {A} (a : list A) (i : nat) (x : A) : result (list A) :=
  if decide (i < length a) then Ret (<[i:=x]> a) else Raise IndexError.

(** [a[i]] for a signed index: negative indices count from the end. *)
Definition getitem_Z {A} (a : list A) (i : Z) : result A :=
  if decide (0 ≤ i)%Z then getitem a (Z.to_nat i)
  else if decide (- Z.of_nat (length a) ≤ i)%Z
       then getitem a (Z.to_nat (Z.of_nat (length a) + i))
       else Raise IndexError.

(** [a[idxs]] for an array of non-negative indices. *)
Definition take_idx {A} (a : list A) (idxs : list nat) : result (list A) :=
  mapM (getitem a) idxs.

(** [a[lo:hi]] *)
Definition slice {A} (lo hi : nat) (a : list A) : list A := drop lo (take hi a).

(** [x > y] on floats, here on rationals. *)
Definition Qgtb (x y : Q) : bool :=
  match (x ?= y)%Q with Gt => true | _ => false end.

Definition np_max (a : list Q) : result Q :=
  match a with [] => Raise ValueError | x :: a => Ret (foldl Qmax x a) end.

Definition np_min (a : list Q) : result Q :=
  match a with [] => Raise ValueError | x :: a => Ret (foldl Qmin x a) end.

(** [xs[mask]] for a boolean mask. *)
Definition mask_select {A} (xs : list A) (mask : list bool) : list A :=
  (filter (λ p, snd p = true) (zip xs mask)).*1.

(** ** The FDC object *)

Record FDC : Type := mkFDC {
  nh_size : nat;
  eta : Q;
  merge : bool;
  search_size : nat;
  n_feature : nat;
  X : list (list Q);
  rho : list Q;
  nn_list : list (list nat);
  nn_dist : list (list Q);
  delta : list Q;
  nn_delta : list Z;
  density_graph : list (list nat);
  idx_centers_unmerged : list nat;
  idx_centers : list nat;
  cluster_label : list Z
}.

Definition set_graph (s : FDC) (dl : list Q) (nnd : list Z) (dg : list (list nat)) : FDC :=
  mkFDC (nh_size s) (eta s) (merge s) (search_size s) (n_feature s) (X s) (rho s) (nn_list s) (nn_dist s)
        dl nnd dg (idx_centers_unmerged s) (idx_centers s) (cluster_label s).

Definition set_idx_centers_unmerged (s : FDC) (c : list nat) : FDC :=
  mkFDC (nh_size s) (eta s) (merge s) (search_size s) (n_feature s) (X s) (rho s) (nn_list s) (nn_dist s)
        (delta s) (nn_delta s) (density_graph s) c (idx_centers s) (cluster_label s).

Definition set_idx_centers (s : FDC) (c : list nat) : FDC :=
  mkFDC (nh_size s) (eta s) (merge s) (search_size s) (n_feature s) (X s) (rho s) (nn_list s) (nn_dist s)
        (delta s) (nn_delta s) (density_graph s) (idx_centers_unmerged s) c (cluster_label s).

Definition set_cluster_label (s : FDC) (l : list Z) : FDC :=
  mkFDC (nh_size s) (eta s) (merge s) (search_size s) (n_feature s) (X s) (rho s) (nn_list s) (nn_dist s)
        (delta s) (nn_delta s) (density_graph s) (idx_centers_unmerged s) (idx_centers s) l.

(** ** [index_greater] *)

Definition prec : Q := 1 # 100000000.

(** The [for idx, val in np.ndenumerate(array)] scan, [idx] counting from
    the position given. *)
Fixpoint first_greater (bound : Q) (idx : nat) (array : list Q) : option nat :=
  match array with
  | [] => None
  | val :: rest =>
      if Qgtb val bound then Some idx else first_greater bound (S idx) rest
  end.

Definition index_greater (array : list Q) : result (option nat) :=
  item ← getitem array 0;
  Ret (first_greater (item + prec)%Q 0 array).

(** Python truth value of an [int or None]. *)
Definition truthy (idx : option nat) : bool :=
  match idx with Some (S _) => true | _ => false end.

Definition is_not_None (idx : option nat) : bool :=
  match idx with Some _ => true | None => false end.

(** The [int] held by a truthy [idx]. *)
Definition as_int (idx : option nat) : nat := default 0 idx.

Section Clustering.

(** [np.linalg.norm] on a vector. *)
Variable norm : list Q → Q.

(** ** [FDC.compute_delta] *)

(** [np.max(X[:,i]) - np.min(X[:,i])] *)
Definition extent (X : list (list Q)) (i : nat) : result Q :=
  col ← mapM (λ row, getitem row i) X;
  hi ← np_max col;
  lo ← np_min col;
  Ret (hi - lo)%Q.

Definition compute_maxdist (s : FDC) : result Q :=
  ext ← mapM (extent (X s)) (seq 0 (n_feature s));
  Ret (norm ext).

(** One iteration of [for i in range(n_sample)], on the three arrays the
    loop writes. *)
Definition delta_step (s : FDC)
    (st : list (list nat) * list Z * list Q) (i : nat)
    : result (list (list nat) * list Z * list Q) :=
  let '(dg, nnd, dl) := st in
  row ← getitem (take (nh_size s) <$> nn_list s) i;
  dens ← take_idx (rho s) row;
  idx ← index_greater dens;
  if truthy idx then
    m ← getitem row (as_int idx);
    kids ← getitem dg m;
    nnd' ← setitem nnd i (Z.of_nat m);
    drow ← getitem (nn_dist s) i;
    d ← getitem drow (as_int idx);
    dl' ← setitem dl i d;
    Ret (<[m := kids ++ [i]]> dg, nnd', dl')
  else
    nnd' ← setitem nnd i (-1)%Z;
    Ret (dg, nnd', dl).

Definition center_threshold (maxdist : Q) : Q := ((99 # 100) * maxdist)%Q.

Definition compute_delta (s : FDC) : result FDC :=
  let n_sample := length (X s) in
  maxdist ← compute_maxdist s;
  let delta0 := replicate n_sample maxdist in
  let nn_delta0 := replicate n_sample 1%Z in
  let density_graph0 := replicate n_sample ([] : list nat) in
  '(dg, nnd, dl) ← foldM (delta_step s) (density_graph0, nn_delta0, delta0) (seq 0 n_sample);
  let centers :=
    mask_select (seq 0 n_sample) ((λ d, Qgtb d (center_threshold maxdist)) <$> dl) in
  Ret (set_idx_centers_unmerged (set_graph s dl nnd dg) centers).

(** ** [assign_cluster_deep] and [assign_cluster] *)

(** Frames left for [assign_cluster_deep] when [assign_cluster] calls it:
    the interpreter raises [RecursionError] on the call that exceeds them. *)
Variable recursion_limit : nat.

Fixpoint assign_cluster_deep (depth : nat) (root : list nat) (cluster_label : list Z)
    (density_graph : list (list nat)) (label : Z) : result (list Z) :=
  match depth with
  | 0 => Raise RecursionError
  | S depth =>
      foldM (λ cl child,
               cl' ← setitem cl child label;
               kids ← getitem density_graph child;
               assign_cluster_deep depth kids cl' density_graph label)
            cluster_label root
  end.

Definition assign_cluster (idx_centers : list nat) (nn_delta : list Z)
    (density_graph : list (list nat)) : result (list Z) :=
  let n_center := length idx_centers in
  let n_sample := length nn_delta in
  foldM (λ cl (p : nat * nat),
           let '(c, label) := p in
           cl' ← setitem cl c (Z.of_nat label);
           kids ← getitem density_graph c;
           assign_cluster_deep recursion_limit kids cl' density_graph (Z.of_nat label))
        (replicate n_sample (-1)%Z)
        (zip idx_centers (seq 0 n_center)).

(** ** [FDC.find_NH_tree_search] *)

(** The body of [for nn in nn_leaf]. *)
Definition visit_nn (s : FDC) (eta : Q) (st : gset nat * list nat) (nn : nat)
    : result (gset nat * list nat) :=
  let '(NH, new_leaves) := st in
  r ← getitem (rho s) nn;
  if Qgtb r eta && bool_decide (nn ∉ NH)
  then Ret ({[nn]} ∪ NH, new_leaves ++ [nn])
  else Ret (NH, new_leaves).

(** The body of [for leaf in leaves]. *)
Definition expand_leaf (s : FDC) (eta : Q) (cluster_label : list Z) (current_label : Z)
    (st : gset nat * list nat) (leaf : nat) : result (gset nat * list nat) :=
  l ← getitem cluster_label leaf;
  if bool_decide (l = current_label) then
    row ← getitem (nn_list s) leaf;
    foldM (visit_nn s eta) st (slice 1 (search_size s) row)
  else Ret st.

(** The [while True] loop. *)
Fixpoint tree_search_loop (fuel : nat) (s : FDC) (eta : Q) (cluster_label : list Z)
    (current_label : Z) (new_leaves : list nat) (NH : gset nat) : result (gset nat) :=
  match new_leaves with
  | [] => Ret NH
  | _ :: _ =>
      match fuel with
      | 0 => OutOfFuel
      | S fuel =>
          '(NH', new_leaves') ←
            foldM (expand_leaf s eta cluster_label current_label) (NH, []) new_leaves;
          tree_search_loop fuel s eta cluster_label current_label new_leaves' NH'
      end
  end.

Definition find_NH_tree_search (s : FDC) (idx : nat) (eta : Q) (cluster_label : list Z)
    : result (list nat) :=
  row ← getitem (nn_list s) idx;
  let new_leaves := slice 1 (nh_size s) row in
  let NH : gset nat := list_to_set new_leaves in
  current_label ← getitem cluster_label idx;
  NH' ← tree_search_loop (S (length (rho s))) s eta cluster_label current_label new_leaves NH;
  Ret (elements NH').

(** ** [check_cluster_stability] *)

Definition eta_floor : Q := 1 # 1000.

(** [np.unique] on an integer array: sorted, without repetition. *)
Definition np_unique (a : list Z) : list Z := merge_sort Z.le (remove_dups a).

Fixpoint argmax_from (best_i : nat) (best : Q) (i : nat) (a : list Q) : nat :=
  match a with
  | [] => best_i
  | x :: a =>
      if Qgtb x best then argmax_from i x (S i) a
      else argmax_from best_i best (S i) a
  end.

(** [np.argmax]: the first position of the maximum. *)
Definition np_argmax (a : list Q) : result nat :=
  match a with [] => Raise ValueError | x :: a => Ret (argmax_from 0 x 1 a) end.

(** [a[idxs]] for an index array made by [np.unique]: the empty one is a
    float array, which numpy refuses as an index. *)
Definition take_idx_Z {A} (a : list A) (idxs : list Z) : result (list A) :=
  match idxs with
  | [] => Raise IndexError
  | _ => mapM (getitem_Z a) idxs
  end.

(** The extended neighbourhood of a candidate. *)
Definition extended_NH (s : FDC) (threshold : Q) (idx : nat) : result (list nat) :=
  rho_center ← getitem (rho s) idx;
  let delta_rho := (rho_center - threshold)%Q in
  if Qgtb eta_floor threshold then
    row ← getitem (nn_list s) idx;
    Ret (slice 1 (search_size s) row)
  else find_NH_tree_search s idx delta_rho (cluster_label s).

(** [label_centers_nn] and [idx_max]. *)
Definition find_idx_max (s : FDC) (idx_centers : list nat) (NH : list nat) : result nat :=
  labels ← mapM (getitem (cluster_label s)) NH;
  let label_centers_nn := np_unique labels in
  cs ← take_idx_Z idx_centers label_centers_nn;
  dens ← take_idx (rho s) cs;
  k ← np_argmax dens;
  l ← getitem label_centers_nn k;
  getitem_Z idx_centers l.

Definition vsub (x y : list Q) : list Q := zip_with Qminus x y.

(** The test [( rho_current < rho[idx_max] ) & ( idx != idx_max )]. *)
Definition demote_test (rho_current rho_max : Q) (idx idx_max : nat) : bool :=
  Qgtb rho_max rho_current && bool_decide (idx ≠ idx_max).

(** The state a pass threads through its loop: the three arrays written in
    place, [n_false_pos] and [idx_true_centers]. *)
Record pass_state : Type := mkPass {
  p_nn_delta : list Z;
  p_delta : list Q;
  p_density_graph : list (list nat);
  n_false_pos : nat;
  idx_true_centers : list nat
}.

(** The body of [for idx in idx_centers]. *)
Definition stability_step (s : FDC) (threshold : Q) (st : pass_state) (idx : nat)
    : result pass_state :=
  NH ← extended_NH s threshold idx;
  idx_max ← find_idx_max s (idx_centers_unmerged s) NH;
  rho_current ← getitem (rho s) idx;
  rho_max ← getitem (rho s) idx_max;
  if demote_test rho_current rho_max idx idx_max then
    nnd ← setitem (p_nn_delta st) idx (Z.of_nat idx_max);
    x_max ← getitem (X s) idx_max;
    x_idx ← getitem (X s) idx;
    dl ← setitem (p_delta st) idx (norm (vsub x_max x_idx));
    kids ← getitem (p_density_graph st) idx_max;
    Ret (mkPass nnd dl (<[idx_max := kids ++ [idx]]> (p_density_graph st))
                (S (n_false_pos st)) (idx_true_centers st))
  else
    Ret (mkPass (p_nn_delta st) (p_delta st) (p_density_graph st)
                (n_false_pos st) (idx_true_centers st ++ [idx])).

(** One pass: the object with its arrays as the pass left them, the true
    centers and the number of false positives. *)
Definition check_cluster_stability (s : FDC) (threshold : Q)
    : result (FDC * list nat * nat) :=
  st ← foldM (stability_step s threshold)
             (mkPass (nn_delta s) (delta s) (density_graph s) 0 [])
             (idx_centers_unmerged s);
  Ret (set_graph s (p_delta st) (p_nn_delta st) (p_density_graph st),
       idx_true_centers st, n_false_pos st).

(** ** [FDC.check_cluster_stability_fast] *)

Fixpoint stability_loop (fuel : nat) (s : FDC) (eta : Q) : result FDC :=
  match fuel with
  | 0 => OutOfFuel
  | S fuel =>
      cl ← assign_cluster (idx_centers_unmerged s) (nn_delta s) (density_graph s);
      '(s', centers, n_fp) ← check_cluster_stability (set_cluster_label s cl) eta;
      let s'' := set_idx_centers_unmerged (set_idx_centers s' centers) centers in
      if decide (n_fp = 0) then Ret s'' else stability_loop fuel s'' eta
  end.

Definition check_cluster_stability_fast (s : FDC) (eta_arg : option Q) : result FDC :=
  let eta := default (eta s) eta_arg in
  stability_loop (S (length (idx_centers_unmerged s))) s eta.

(** ** [FDC.coarse_grain] *)

Record level : Type := mkLevel {
  l_idx_centers : list nat;
  l_cluster_labels : list Z
}.

Record coarse : Type := mkCoarse {
  c_fdc : FDC;
  hierarchy : list level;
  max_noise : Q;
  n_cluster : nat
}.

(** The body of [for nt in noise_range]. *)
Definition coarse_step (st : coarse) (nt : Q) : result coarse :=
  s ← check_cluster_stability_fast (c_fdc st) (Some nt);
  let h := hierarchy st ++ [mkLevel (idx_centers s) (cluster_label s)] in
  if decide (length (idx_centers s) ≠ n_cluster st)
  then Ret (mkCoarse s h nt (length (idx_centers s)))
  else Ret (mkCoarse s h (max_noise st) (n_cluster st)).

(** The object, [hierarchy], [max_noise] and [noise_threshold]. *)
Definition coarse_grain (s : FDC) (noise_range : list Q) : result (coarse * Q) :=
  st ← foldM coarse_step (mkCoarse s [] (-1)%Q 0) noise_range;
  noise_threshold ← getitem_Z noise_range (-1)%Z;
  Ret (st, noise_threshold).

(** ** [FDC.get_cluster_info] *)

Fixpoint argmin_from (best_i : nat) (best : Q) (i : nat) (a : list Q) : nat :=
  match a with
  | [] => best_i
  | x :: a =>
      if Qgtb best x then argmin_from i x (S i) a
      else argmin_from best_i best (S i) a
  end.

(** [np.argmin]: the first position of the minimum. *)
Definition np_argmin (a : list Q) : result nat :=
  match a with [] => Raise ValueError | x :: a => Ret (argmin_from 0 x 1 a) end.

(** [(cluster_label, idx_center)] of the object, or of the level of the
    sweep whose threshold is nearest to [eta]; [st] and [noise_range] are
    what [coarse_grain] left on the object. *)
Definition get_cluster_info (st : coarse) (noise_range : list Q) (eta_arg : option Q)
    : result (list Z * list nat) :=
  match eta_arg with
  | None => Ret (cluster_label (c_fdc st), idx_centers (c_fdc st))
  | Some eta =>
      pos ← np_argmin ((λ nt, Qabs (nt - eta)) <$> noise_range);
      lvl ← getitem (hierarchy st) pos;
      Ret (l_cluster_labels lvl, l_idx_centers lvl)
  end.

(** ** [FDC.fit], after the density has been fitted *)

Definition fit (s : FDC) : result FDC :=
  s ← compute_delta s;
  let s := set_idx_centers s (idx_centers_unmerged s) in
  cl ← assign_cluster (idx_centers_unmerged s) (nn_delta s) (density_graph s);
  let s := set_cluster_label s cl in
  s ← (if merge s then check_cluster_stability_fast s (Some 0%Q) else Ret s);
  if Qgtb eta_floor (eta s) then Ret s
  else check_cluster_stability_fast s (Some (eta s)).

End Clustering.

(** ** [most_common] of classify.py *)

(** [lst.count(x)]. *)
Definition list_count (lst : list Z) (x : Z) : nat :=
  length (filter (λ y, y = x) lst).

(** [max(items, key=key)] after its first item: a later item replaces
    the best one when its key is strictly greater. *)
Fixpoint max_from {A} (key : A → nat) (best : A) (items : list A) : A :=
  match items with
  | [] => best
  | x :: items =>
      if decide (key best < key x) then max_from key x items
      else max_from key best items
  end.

Definition py_max {A} (key : A → nat) (items : list A) : result A :=
  match items with
  | [] => Raise ValueError
  | x :: items => Ret (max_from key x items)
  end.

Section MostCommon.
(** The order in which [set(lst)] is iterated. *)
Variable set_iter : list Z → list Z.

Definition most_common (lst : list Z) : result Z :=
  py_max (list_count lst) (set_iter lst).

End MostCommon.

(** * Specifications *)

(** ** Well-formed input of the gradient graph builder

    [X] is an [n_sample × n_feature] array with at least one row, [rho]
    has a density per point, and the neighbour oracle gave every point a
    row of in-range neighbours that starts with the point itself, with a
    distance for each. *)
Record wf_input (s : FDC) : Prop := mk_wf_input {
  wf_rho : length (rho s) = length (X s);
  wf_nn_list : length (nn_list s) = length (X s);
  wf_nn_dist : length (nn_dist s) = length (X s);
  wf_X : Forall (λ x, length x = n_feature s) (X s);
  wf_nonempty : 0 < length (X s);
  wf_nh_size : 1 ≤ nh_size s;
  wf_self : ∀ i row, nn_list s !! i = Some row → row !! 0 = Some i;
  wf_range : ∀ i row, nn_list s !! i = Some row → Forall (λ m, m < length (X s)) row;
  wf_dist : ∀ i row drow,
    nn_list s !! i = Some row → nn_dist s !! i = Some drow → length row = length drow
}.

(** What the builder leaves at point [i]: the first neighbour within the
    cutoff that is denser by more than [prec], with its distance, or no
    parent and the sentinel. *)
Definition parent_spec (s : FDC) (maxdist : Q) (i : nat) (nnd : list Z) (dl : list Q) : Prop :=
  ∃ row ri, nn_list s !! i = Some row ∧ rho s !! i = Some ri ∧
    ((∃ k m rm drow d,
        1 ≤ k < nh_size s ∧ row !! k = Some m ∧ rho s !! m = Some rm ∧
        (ri + prec < rm)%Q ∧
        (∀ k' m' rm', 1 ≤ k' < k → row !! k' = Some m' → rho s !! m' = Some rm' →
                      (rm' <= ri + prec)%Q) ∧
        nnd !! i = Some (Z.of_nat m) ∧
        nn_dist s !! i = Some drow ∧ drow !! k = Some d ∧ dl !! i = Some d)
     ∨ ((∀ k m rm, 1 ≤ k < nh_size s → row !! k = Some m → rho s !! m = Some rm →
                   (rm <= ri + prec)%Q) ∧
        nnd !! i = Some (-1)%Z ∧ dl !! i = Some maxdist)).

(** The loop invariant of [compute_delta] after [k] iterations. *)
Definition delta_inv (s : FDC) (maxdist : Q) (k : nat)
    (st : list (list nat) * list Z * list Q) : Prop :=
  let n := length (X s) in
  length st.1.1 = n ∧ length st.1.2 = n ∧ length st.2 = n ∧
  (∀ i, i < k → parent_spec s maxdist i st.1.2 st.2) ∧
  (∀ i, k ≤ i < n → st.2 !! i = Some maxdist).

(** Density increases strictly along every parent edge. *)
Definition parent_increasing (rho : list Q) (nn_delta : list Z) : Prop :=
  ∀ i p, nn_delta !! i = Some p → (0 ≤ p)%Z →
    ∃ ri rp, rho !! i = Some ri ∧ rho !! (Z.to_nat p) = Some rp ∧ (ri < rp)%Q.

(** ** The density graph as a forest *)

(** [x] is a child of [q]. *)
Definition edge (G : list (list nat)) (q x : nat) : Prop :=
  ∃ kids, G !! q = Some kids ∧ x ∈ kids.

(** The basin of [c]: the points reachable from [c] along children edges. *)
Definition basin (G : list (list nat)) (c p : nat) : Prop := rtc (edge G) c p.

(** [p] is in the basin of a point of [root]. *)
Definition below (G : list (list nat)) (root : list nat) (p : nat) : Prop :=
  ∃ c, c ∈ root ∧ basin G c p.

(** What a call of [assign_cluster_deep] on [root] does to the labels. *)
Definition stamped (G : list (list nat)) (label : Z) (root : list nat)
    (cl cl' : list Z) : Prop :=
  length cl' = length cl ∧
  (∀ p, cl' !! p = cl !! p ∨ (below G root p ∧ cl' !! p = Some label)) ∧
  (∀ p, below G root p → cl' !! p = Some label).

(** A forest over the points [0..n-1] rooted at [centers]: every point is
    a center or has exactly one parent, never both, children are below
    their parent in [height], and no basin is deeper than the recursion
    allows. *)
Record forest (G : list (list nat)) (centers : list nat) (n : nat)
    (height : nat → nat) (limit : nat) : Prop := mk_forest {
  forest_length : length G = n;
  forest_unique : NoDup (concat G ++ centers);
  forest_cover : ∀ p, p < n → p ∈ concat G ++ centers;
  forest_range : ∀ p, p ∈ concat G ++ centers → p < n;
  forest_height : ∀ q x, edge G q x → height x < height q;
  forest_depth : ∀ p, p < n → height p + 2 ≤ limit
}.

(** ** The threshold-gated expansion *)

Section Reach.

Variables (s : FDC) (cluster_label : list Z) (current_label : Z) (eta : Q).

(** Expanding [leaf] admits [nn]: [leaf] carries the current label, [nn]
    is among its neighbours within [search_size], and is denser than
    [eta]. *)
Definition admits (leaf nn : nat) : Prop :=
  ∃ row r, cluster_label !! leaf = Some current_label ∧
           nn_list s !! leaf = Some row ∧
           nn ∈ slice 1 (search_size s) row ∧
           rho s !! nn = Some r ∧ (eta < r)%Q.

(** The least set that holds [start] and is closed under expansion. *)
Inductive reach (start : list nat) : nat → Prop :=
| reach_start x : x ∈ start → reach start x
| reach_admit leaf nn : reach start leaf → admits leaf nn → reach start nn.

(** The pair [(NH, new_leaves)] inside one round of the search that
    started the round with [NH0]: the new leaves are exactly what was
    added, and each is a point with a density that satisfies [P]. *)
Definition grown (P : nat → Prop) (NH0 : gset nat) (st : gset nat * list nat) : Prop :=
  st.1 = NH0 ∪ list_to_set (st.2) ∧
  ∀ x, x ∈ st.2 → (x ∉ NH0) ∧ (x < length (rho s)) ∧ P x.

(** Everything [leaf] admits is in [NH]. *)
Definition expanded (leaf : nat) (NH : gset nat) : Prop :=
  ∀ nn, admits leaf nn → nn ∈ NH.

(** Points of [0..length rho) not yet visited: each round that goes on
    takes at least one. *)
Definition unvisited (NH : gset nat) : nat :=
  size (set_seq 0 (length (rho s)) ∖ NH : gset nat).

(** The invariant of the [while True] loop. *)
Definition search_inv (start leaves : list nat) (NH : gset nat) : Prop :=
  (∀ x, x ∈ NH → reach start x) ∧
  (∀ x, x ∈ start → x ∈ NH) ∧
  (∀ x, x ∈ leaves → x ∈ NH) ∧
  (∀ leaf, leaf ∈ NH → leaf ∉ leaves → expanded leaf NH).

End Reach.

(** ** The verdict of a pass on one candidate *)

(** [idx_max] and the outcome of the demotion test for candidate [idx]:
    what the loop body computes before it writes. *)
Definition verdict (s : FDC) (threshold : Q) (idx : nat) : result (nat * bool) :=
  NH ← extended_NH s threshold idx;
  idx_max ← find_idx_max s (idx_centers_unmerged s) NH;
  rho_current ← getitem (rho s) idx;
  rho_max ← getitem (rho s) idx_max;
  Ret (idx_max, demote_test rho_current rho_max idx idx_max).

(** Candidate [idx] stays a center. *)
Definition is_kept (s : FDC) (threshold : Q) (idx : nat) : bool :=
  match verdict s threshold idx with
  | Ret (_, false) => true
  | _ => false
  end.

(** The labels carried by the points of [NH] are labels of centers. *)
Definition recognized (s : FDC) (NH : list nat) : Prop :=
  ∀ ni l, ni ∈ NH → cluster_label s !! ni = Some l →
          (0 ≤ l < Z.of_nat (length (idx_centers_unmerged s)))%Z.

(** [m] is a center of highest density among those whose label occurs
    in [NH]. *)
Definition densest_center (s : FDC) (NH : list nat) (m : nat) : Prop :=
  ∃ ni l rm, ni ∈ NH ∧ cluster_label s !! ni = Some l ∧
    idx_centers_unmerged s !! Z.to_nat l = Some m ∧ rho s !! m = Some rm ∧
    ∀ ni' l' c r, ni' ∈ NH → cluster_label s !! ni' = Some l' →
      idx_centers_unmerged s !! Z.to_nat l' = Some c → rho s !! c = Some r →
      (r <= rm)%Q.

(** Two objects a pass cannot tell apart. *)
Definition same_view (s s' : FDC) : Prop :=
  nh_size s = nh_size s' ∧ search_size s = search_size s' ∧ X s = X s' ∧
  rho s = rho s' ∧ nn_list s = nn_list s' ∧
  idx_centers_unmerged s = idx_centers_unmerged s' ∧
  cluster_label s = cluster_label s'.

(** What a pass has done after the candidates [pre]. *)
Definition pass_inv (s : FDC) (threshold : Q) (pre : list nat) (st : pass_state) : Prop :=
  idx_true_centers st = filter (λ i, is_kept s threshold i = true) pre ∧
  n_false_pos st + length (idx_true_centers st) = length pre ∧
  length (p_nn_delta st) = length (nn_delta s) ∧
  length (p_delta st) = length (delta s) ∧
  length (p_density_graph st) = length (density_graph s) ∧
  (n_false_pos st = 0 →
   p_nn_delta st = nn_delta s ∧ p_delta st = delta s ∧
   p_density_graph st = density_graph s).

(** ** The hierarchy *)

(** Consecutive levels of the hierarchy: the later centers are among the
    earlier ones. *)
Definition descending (h : list level) : Prop :=
  ∀ i l1 l2, h !! i = Some l1 → h !! S i = Some l2 →
    l_idx_centers l2 `sublist_of` l_idx_centers l1.

(** The invariant of the loop of [coarse_grain]. *)
Definition coarse_inv (st : coarse) : Prop :=
  descending (hierarchy st) ∧
  ∀ l, last (hierarchy st) = Some l →
       idx_centers_unmerged (c_fdc st) = l_idx_centers l.

(** ** Sample inputs *)

(** [np.linalg.norm] on the vectors of one feature, where it is the
    absolute value. *)
Definition abs_norm (v : list Q) : Q :=
  match v with [x] => Qabs x | _ => 0%Q end.

(** An object as [fit] has it once the density is fitted. *)
Definition fitted (nh ss : nat) (e : Q) (Xs : list (list Q)) (r : list Q)
    (nn : list (list nat)) (nd : list (list Q)) : FDC :=
  mkFDC nh e true ss 1 Xs r nn nd [] [] [] [] [] [].

(** Four points on a line, at 0, 0.1, 1 and 1.5: two dense points with
    one follower each, the follower of the denser one in a deep valley. *)
Definition line4 (e : Q) : FDC :=
  fitted 2 3 e
    [[0%Q]; [1 # 10]; [1%Q]; [3 # 2]]
    [1%Q; 1 # 2; (-10)%Q; 5%Q]
    [[0; 1; 2]; [1; 0; 2]; [2; 3; 1]; [3; 2; 1]]
    [[0%Q; 1 # 10; 1%Q]; [0%Q; 1 # 10; 9 # 10]; [0%Q; 1 # 2; 9 # 10]; [0%Q; 1 # 2; 7 # 5]].

(** [line4] after [compute_delta] and the first labelling. *)
Definition line4_graph (e : Q) : FDC :=
  mkFDC 2 e true 3 1
    [[0%Q]; [1 # 10]; [1%Q]; [3 # 2]]
    [1%Q; 1 # 2; (-10)%Q; 5%Q]
    [[0; 1; 2]; [1; 0; 2]; [2; 3; 1]; [3; 2; 1]]
    [[0%Q; 1 # 10; 1%Q]; [0%Q; 1 # 10; 9 # 10]; [0%Q; 1 # 2; 9 # 10]; [0%Q; 1 # 2; 7 # 5]]
    [3 # 2; 1 # 10; 1 # 2; 3 # 2] [(-1)%Z; 0%Z; 3%Z; (-1)%Z]
    [[1]; []; []; [2]] [0; 3] [0; 3] [0%Z; 0%Z; 1%Z; 1%Z].

(** Two points on a line, at 0 and 1, the second one denser. *)
Definition pair2 : FDC :=
  fitted 2 2 0
    [[0%Q]; [1%Q]] [0%Q; 1%Q] [[0; 1]; [1; 0]] [[0%Q; 1%Q]; [0%Q; 1%Q]].

(** Two points, one center, and a neighbour of it that no center
    reaches, so that it has no label. *)
Definition unlabeled2 : FDC :=
  mkFDC 2 0 true 2 1
    [[0%Q]; [1%Q]] [1%Q; 0%Q] [[0; 1]; [1; 0]] [[0%Q; 1%Q]; [0%Q; 1%Q]]
    [1%Q; 1%Q] [(-1)%Z; (-1)%Z] [[]; []] [0] [0] [0%Z; (-1)%Z].

(** A candidate whose row of neighbours holds nothing but itself. *)
Definition lonely1 : FDC :=
  mkFDC 2 0 true 2 1
    [[0%Q]] [1%Q] [[0]] [[0%Q]]
    [0%Q] [(-1)%Z] [[]] [0] [0] [0%Z].

(** The height of the points of [line4_graph] in its forest. *)
Definition line4_height (p : nat) : nat :=
  match p with 0 | 3 => 1 | _ => 0 end.

(** What [coarse_grain] has recorded after the thresholds [pre]. *)
Definition sweep_inv (pre : list Q) (st : coarse) : Prop :=
  length (hierarchy st) = length pre ∧
  (pre ≠ [] →
   n_cluster st = length (idx_centers (c_fdc st)) ∧
   last (hierarchy st) =
     Some (mkLevel (idx_centers (c_fdc st)) (cluster_label (c_fdc st)))) ∧
  (max_noise st = (-1)%Q ∨ max_noise st ∈ pre).

(** [c] is one of the centers [cs], and none of them is denser. *)
Definition top_center (rho : list Q) (cs : list nat) (c : nat) : Prop :=
  c ∈ cs ∧ ∃ rc, rho !! c = Some rc ∧
    ∀ c' r', c' ∈ cs → rho !! c' = Some r' → (r' <= rc)%Q.

(** * Properties *)

(** ** The result monad *)

Lemma bind_Ret {A B} (m : result A) (f : A → result B) (b : B) :
  (m ≫= f) = Ret b ↔ ∃ a, m = Ret a ∧ f a = Ret b.
Proof.
  destruct m as [e|a|]; simpl; split.
  - discriminate.
  - intros (a & Ha & _); discriminate.
  - intros H; exists a; auto.
  - intros (a' & Ha & Hf); congruence.
  - discriminate.
  - intros (a & Ha & _); discriminate.
Qed.

Lemma getitem_Ret {A} (a : list A) (i : nat) (x : A) :
  getitem a i = Ret x ↔ a !! i = Some x.
Proof. unfold getitem. destruct (a !! i); split; congruence. Qed.

Lemma getitem_lt {A} (a : list A) (i : nat) :
  i < length a → ∃ x, getitem a i = Ret x ∧ a !! i = Some x.
Proof.
  intros H. destruct (lookup_lt_is_Some_2 a i H) as [x Hx].
  exists x. by rewrite getitem_Ret.
Qed.

Lemma setitem_Ret {A} (a a' : list A) (i : nat) (x : A) :
  setitem a i x = Ret a' ↔ i < length a ∧ a' = <[i:=x]> a.
Proof.
  unfold setitem. destruct (decide (i < length a)); split.
  - intros [= <-]; auto.
  - intros [_ ->]; auto.
  - discriminate.
  - intros [? _]; lia.
Qed.

Lemma setitem_lt {A} (a : list A) (i : nat) (x : A) :
  i < length a → setitem a i x = Ret (<[i:=x]> a).
Proof. intros H. by apply setitem_Ret. Qed.

(** Inversion of a successful run, one bind at a time. *)
Ltac inv_ret :=
  repeat match goal with
  | H : (_ ≫= _) = Ret _ |- _ =>
      let a := fresh "a" in let Ha := fresh "Ha" in
      apply bind_Ret in H; destruct H as (a & Ha & H)
  | H : Ret _ = Ret _ |- _ => injection H as H
  | H : getitem _ _ = Ret _ |- _ => apply getitem_Ret in H
  | H : setitem _ _ _ = Ret _ |- _ =>
      let Hl := fresh "Hlt" in apply setitem_Ret in H; destruct H as [Hl H]
  | H : Raise _ = Ret _ |- _ => discriminate H
  | H : OutOfFuel = Ret _ |- _ => discriminate H
  end.

Lemma mapM_Ret {A B} (f : A → result B) (l : list A) (k : list B) :
  mapM f l = Ret k ↔ Forall2 (λ x y, f x = Ret y) l k.
Proof.
  revert k. induction l as [|x l IH]; intros k; simpl.
  - split; [intros [= <-]; constructor | by inversion 1].
  - split.
    + intros H. inv_ret. simpl in H. injection H as <-.
      constructor; [done|]. by apply IH.
    + inversion 1 as [|? y ? k' Hy Hk]; subst.
      apply bind_Ret. exists y; split; [done|].
      apply bind_Ret. exists k'; split; [by apply IH|done].
Qed.

Lemma mapM_returns {A B} (f : A → result B) (l : list A) :
  Forall (λ x, returns (f x)) l → returns (mapM f l).
Proof.
  induction 1 as [|x l [y Hy] _ [k Hk]].
  - by exists [].
  - exists (y :: k). apply mapM_Ret. constructor; [done|]. by apply mapM_Ret.
Qed.

Lemma take_idx_Ret {A} (a : list A) (idxs : list nat) (k : list A) :
  take_idx a idxs = Ret k ↔ Forall2 (λ i x, a !! i = Some x) idxs k.
Proof.
  unfold take_idx. rewrite mapM_Ret.
  split; intros H; eapply Forall2_impl; try exact H;
    intros i x; by rewrite getitem_Ret.
Qed.

Lemma foldM_app {A B} (f : A → B → result A) (a : A) (l1 l2 : list B) :
  foldM f a (l1 ++ l2) = (foldM f a l1 ≫= λ a', foldM f a' l2).
Proof.
  revert a. induction l1 as [|b l1 IH]; intros a; simpl; [done|].
  destruct (f a b); simpl; auto.
Qed.

(** A loop invariant that every successful iteration preserves holds on
    return. *)
Lemma foldM_inv {A B} (P : A → Prop) (f : A → B → result A) (l : list B) (a a' : A) :
  (∀ x b y, b ∈ l → P x → f x b = Ret y → P y) →
  P a → foldM f a l = Ret a' → P a'.
Proof.
  revert a. induction l as [|b l IH]; intros a Hstep Ha H; simpl in H.
  - by injection H as <-.
  - inv_ret. eapply IH; [| |exact H].
    + intros x b' y Hb. apply Hstep. by right.
    + eapply Hstep; [by left|exact Ha|exact Ha0].
Qed.

Lemma foldM_returns {A B} (P : A → Prop) (f : A → B → result A) (l : list B) (a : A) :
  (∀ x b, b ∈ l → P x → ∃ y, f x b = Ret y ∧ P y) →
  P a → ∃ a', foldM f a l = Ret a' ∧ P a'.
Proof.
  revert a. induction l as [|b l IH]; intros a Hstep Ha; simpl.
  - by exists a.
  - destruct (Hstep a b) as (y & Hy & HPy); [by left|done|].
    rewrite Hy; simpl. apply IH; [|done].
    intros x b' Hb. apply Hstep. by right.
Qed.

Lemma foldM_seq_inv {A} (P : nat → A → Prop) (f : A → nat → result A)
    (start len : nat) (a a' : A) :
  (∀ i x y, start ≤ i < start + len → P i x → f x i = Ret y → P (S i) y) →
  P start a → foldM f a (seq start len) = Ret a' → P (start + len) a'.
Proof.
  revert start a. induction len as [|len IH]; intros start a Hstep Ha H; simpl in H.
  - injection H as <-. by rewrite Nat.add_0_r.
  - inv_ret. replace (start + S len) with (S start + len) by lia.
    eapply IH; [| |exact H].
    + intros i x y Hi. apply Hstep. lia.
    + eapply Hstep; [|exact Ha|exact Ha0]. lia.
Qed.

Lemma foldM_seq_returns {A} (P : nat → A → Prop) (f : A → nat → result A)
    (start len : nat) (a : A) :
  (∀ i x, start ≤ i < start + len → P i x → ∃ y, f x i = Ret y ∧ P (S i) y) →
  P start a → ∃ a', foldM f a (seq start len) = Ret a' ∧ P (start + len) a'.
Proof.
  revert start a. induction len as [|len IH]; intros start a Hstep Ha; simpl.
  - exists a. by rewrite Nat.add_0_r.
  - destruct (Hstep start a) as (y & Hy & HPy); [lia|done|].
    rewrite Hy; simpl. replace (start + S len) with (S start + len) by lia.
    apply IH; [|done]. intros i x Hi. apply Hstep. lia.
Qed.

Lemma mapM_Ret_length {A B} (f : A → result B) (l : list A) (k : list B) :
  mapM f l = Ret k → length k = length l.
Proof. intros H. apply mapM_Ret in H. symmetry. by eapply Forall2_length. Qed.

Lemma take_idx_returns {A} (a : list A) (idxs : list nat) :
  Forall (λ i, i < length a) idxs → returns (take_idx a idxs).
Proof.
  intros H. apply mapM_returns. eapply Forall_impl; [exact H|].
  intros i Hi. destruct (getitem_lt a i Hi) as (x & Hx & _). by exists x.
Qed.

Lemma foldM_prefix_returns {A B} (P : list B → A → Prop) (f : A → B → result A)
    (l : list B) (a : A) :
  (∀ pre b post x, l = pre ++ b :: post → P pre x →
                   ∃ y, f x b = Ret y ∧ P (pre ++ [b]) y) →
  P [] a → ∃ a', foldM f a l = Ret a' ∧ P l a'.
Proof.
  intros Hstep.
  enough (Hgen : ∀ post pre x, l = pre ++ post → P pre x →
                               ∃ a', foldM f x post = Ret a' ∧ P l a').
  { intros Ha. by apply (Hgen l [] a). }
  induction post as [|b post IH]; intros pre x Hl Hx; simpl.
  - exists x. split; [done|]. by rewrite Hl, app_nil_r.
  - destruct (Hstep pre b post x Hl Hx) as (y & Hy & HPy).
    rewrite Hy; simpl. apply (IH (pre ++ [b])); [|done].
    by rewrite <- app_assoc.
Qed.

Lemma elem_of_concat {A} (x : A) (ls : list (list A)) :
  x ∈ concat ls ↔ ∃ l, l ∈ ls ∧ x ∈ l.
Proof.
  rewrite list_elem_of_In, in_concat. split; intros (l & H1 & H2); exists l.
  - by rewrite !list_elem_of_In.
  - by rewrite <- !list_elem_of_In.
Qed.

Lemma NoDup_concat_lookup {A} (ls : list (list A)) (i j : nat) (li lj : list A) (x : A) :
  NoDup (concat ls) → ls !! i = Some li → ls !! j = Some lj →
  x ∈ li → x ∈ lj → i = j.
Proof.
  revert i j. induction ls as [|l ls IH]; intros i j Hnd Hi Hj Hxi Hxj.
  - by rewrite lookup_nil in Hi.
  - simpl in Hnd. apply NoDup_app in Hnd as (_ & Hdisj & Hnd).
    destruct i as [|i], j as [|j]; simpl in *.
    + done.
    + injection Hi as <-. exfalso. apply (Hdisj x Hxi).
      apply elem_of_concat. exists lj. split; [|done]. by eapply list_elem_of_lookup_2.
    + injection Hj as <-. exfalso. apply (Hdisj x Hxj).
      apply elem_of_concat. exists li. split; [|done]. by eapply list_elem_of_lookup_2.
    + f_equal. by apply IH.
Qed.

Lemma zip_seq_lookup {A} (l : list A) (k : nat) (c : A) (j : nat) :
  zip l (seq 0 (length l)) !! k = Some (c, j) ↔ k = j ∧ l !! j = Some c.
Proof.
  split.
  - intros H. apply lookup_zip_with_Some in H as (x & y & [= -> ->] & Hx & Hy).
    apply lookup_seq in Hy as [-> _]. done.
  - intros [-> Hc]. apply lookup_zip_with_Some. exists c, j.
    split; [done|]. split; [done|].
    apply lookup_seq. split; [done|]. by eapply lookup_lt_Some.
Qed.

Lemma foldM_prefix_inv {A B} (P : list B → A → Prop) (f : A → B → result A)
    (l : list B) (a a' : A) :
  (∀ pre b post x y, l = pre ++ b :: post → P pre x → f x b = Ret y →
                     P (pre ++ [b]) y) →
  P [] a → foldM f a l = Ret a' → P l a'.
Proof.
  intros Hstep.
  enough (Hgen : ∀ post pre x, l = pre ++ post → P pre x →
                               foldM f x post = Ret a' → P l a').
  { intros Ha. by apply (Hgen l [] a). }
  induction post as [|b post IH]; intros pre x Hl Hx H; simpl in H.
  - injection H as <-. by rewrite Hl, app_nil_r.
  - inv_ret. apply (IH (pre ++ [b]) a0); [by rewrite <- app_assoc| |done].
    by eapply Hstep.
Qed.

Lemma bind_fuel {A B} (m : result A) (f : A → result B) :
  m ≠ OutOfFuel → (∀ a, f a ≠ OutOfFuel) → (m ≫= f) ≠ OutOfFuel.
Proof. destruct m; simpl; auto. Qed.

Lemma foldM_fuel {A B} (f : A → B → result A) (a : A) (l : list B) :
  (∀ x b, f x b ≠ OutOfFuel) → foldM f a l ≠ OutOfFuel.
Proof.
  intros Hf. revert a. induction l as [|b l IH]; intros a; simpl; [done|].
  by apply bind_fuel.
Qed.

Lemma getitem_fuel {A} (a : list A) (i : nat) : getitem a i ≠ OutOfFuel.
Proof. unfold getitem. by destruct (a !! i). Qed.

Lemma setitem_fuel {A} (a : list A) (i : nat) (x : A) : setitem a i x ≠ OutOfFuel.
Proof. unfold setitem. by destruct (decide _). Qed.

Lemma mapM_fuel {A B} (f : A → result B) (l : list A) :
  (∀ x, f x ≠ OutOfFuel) → mapM f l ≠ OutOfFuel.
Proof.
  intros Hf. induction l as [|x l IH]; simpl; [done|].
  apply bind_fuel; [done|]. intros y. by apply bind_fuel.
Qed.

Lemma elem_of_slice {A} (lo hi : nat) (a : list A) (x : A) :
  x ∈ slice lo hi a → x ∈ a.
Proof.
  unfold slice. intros H. apply list_elem_of_lookup in H as [i Hi].
  rewrite lookup_drop in Hi. apply lookup_take_Some in Hi as [Hi _].
  by eapply list_elem_of_lookup_2.
Qed.

Lemma foldM_ext {A B} (f g : A → B → result A) (a : A) (l : list B) :
  (∀ x b, f x b = g x b) → foldM f a l = foldM g a l.
Proof.
  intros Hfg. revert a. induction l as [|b l IH]; intros a; simpl; [done|].
  rewrite Hfg. destruct (g a b); simpl; auto.
Qed.

Lemma filter_length_eq {A} (P : A → Prop) `{∀ x, Decision (P x)} (l : list A) :
  length (filter P l) = length l → filter P l = l.
Proof.
  induction l as [|x l IH]; [done|].
  destruct (decide (P x)) as [HP|HP].
  - rewrite filter_cons_True by done. simpl. intros [= Hl]. f_equal. by apply IH.
  - rewrite filter_cons_False by done. simpl. intros Hl.
    pose proof (length_filter P l). lia.
Qed.

Lemma getitem_Z_fuel {A} (a : list A) (i : Z) : getitem_Z a i ≠ OutOfFuel.
Proof.
  unfold getitem_Z. destruct (decide _); [apply getitem_fuel|].
  destruct (decide _); [apply getitem_fuel|done].
Qed.

(** ** Comparisons *)

Lemma Qgtb_true (x y : Q) : Qgtb x y = true ↔ (y < x)%Q.
Proof.
  unfold Qgtb. rewrite (Qgt_alt x y).
  destruct (x ?= y)%Q; split; congruence.
Qed.

Lemma Qgtb_false (x y : Q) : Qgtb x y = false ↔ (x <= y)%Q.
Proof.
  rewrite <- not_true_iff_false, Qgtb_true. split.
  - apply Qnot_lt_le.
  - apply Qle_not_lt.
Qed.

Lemma Qgtb_self_prec (x : Q) : Qgtb x (x + prec) = false.
Proof.
  apply Qgtb_false. rewrite <- (Qplus_0_r x) at 1.
  apply Qplus_le_r. unfold prec. discriminate.
Qed.

(** ** [index_greater] *)

Lemma first_greater_Some (bound : Q) (i k : nat) (array : list Q) :
  first_greater bound i array = Some k →
  i ≤ k ∧ ∃ v, array !! (k - i) = Some v ∧ (bound < v)%Q ∧
    ∀ j w, j < k - i → array !! j = Some w → (w <= bound)%Q.
Proof.
  revert i. induction array as [|val rest IH]; intros i; simpl; [discriminate|].
  destruct (Qgtb val bound) eqn:Hgt.
  - intros [= <-]. split; [lia|]. exists val. rewrite Nat.sub_diag.
    split; [done|]. split; [by apply Qgtb_true|]. intros j w Hj; lia.
  - intros H. destruct (IH _ H) as (Hle & v & Hv & Hb & Hmin).
    split; [lia|]. exists v.
    replace (k - i) with (S (k - S i)) by lia. split; [done|]. split; [done|].
    intros [|j] w Hj; simpl.
    + intros [= <-]. by apply Qgtb_false.
    + apply Hmin. lia.
Qed.

Lemma first_greater_None (bound : Q) (i : nat) (array : list Q) :
  first_greater bound i array = None →
  ∀ j w, array !! j = Some w → (w <= bound)%Q.
Proof.
  revert i. induction array as [|val rest IH]; intros i; simpl.
  - intros _ j w. by rewrite lookup_nil.
  - destruct (Qgtb val bound) eqn:Hgt; [discriminate|].
    intros H [|j] w; simpl.
    + intros [= <-]. by apply Qgtb_false.
    + by apply (IH _ H).
Qed.

Lemma index_greater_not_0 (array : list Q) (idx : option nat) :
  index_greater array = Ret idx → idx ≠ Some 0.
Proof.
  unfold index_greater. intros H Hidx. inv_ret. subst idx.
  destruct array as [|item rest]; [discriminate|].
  injection Ha as ->. simpl in Hidx.
  rewrite Qgtb_self_prec in Hidx.
  apply first_greater_Some in Hidx as [? _]. lia.
Qed.

(** ** [FDC.compute_delta] *)

Lemma delta_step_spec s maxdist dg nnd dl i dg' nnd' dl' :
  (∀ row, nn_list s !! i = Some row → row !! 0 = Some i) →
  delta_step s (dg, nnd, dl) i = Ret (dg', nnd', dl') →
  dl !! i = Some maxdist →
  parent_spec s maxdist i nnd' dl' ∧
  length dg' = length dg ∧ length nnd' = length nnd ∧ length dl' = length dl ∧
  (∀ j, j ≠ i → nnd' !! j = nnd !! j ∧ dl' !! j = dl !! j).
Proof.
  intros Hself H Hdl. unfold delta_step in H.
  apply bind_Ret in H as (row & Hrow & H).
  apply bind_Ret in H as (dens & Hdens & H).
  apply bind_Ret in H as (idx & Hidx & H).
  apply getitem_Ret in Hrow. rewrite list_lookup_fmap in Hrow.
  destruct (nn_list s !! i) as [row0|] eqn:Hrow0; [|discriminate].
  injection Hrow as <-.
  apply take_idx_Ret in Hdens.
  pose proof (index_greater_not_0 _ _ Hidx) as Hnot0.
  unfold index_greater in Hidx.
  apply bind_Ret in Hidx as (item & Hitem & Hidx). injection Hidx as Hidx.
  apply getitem_Ret in Hitem.
  specialize (Hself _ eq_refl).
  assert (Hri : rho s !! i = Some item).
  { destruct (Forall2_lookup_r _ _ _ _ _ Hdens Hitem) as (i0 & Hi0 & Hr).
    apply lookup_take_Some in Hi0 as [Hi0 _]. congruence. }
  assert (Hdens_row : ∀ k m rm, k < nh_size s → row0 !! k = Some m →
            rho s !! m = Some rm → dens !! k = Some rm).
  { intros k m rm Hk Hm Hrm.
    assert (Ht : take (nh_size s) row0 !! k = Some m) by (by apply lookup_take_Some).
    destruct (Forall2_lookup_l _ _ _ _ _ Hdens Ht) as (v & Hv & Hr). congruence. }
  destruct idx as [[|k]|]; [done| |]; simpl in H.
  - (* a parent at position S k *)
    inv_ret. subst. apply lookup_take_Some in Ha as [Hm Hk].
    apply first_greater_Some in Hidx as (_ & v & Hv & Hgt & Hmin).
    rewrite Nat.sub_0_r in Hv.
    destruct (Forall2_lookup_r _ _ _ _ _ Hdens Hv) as (m' & Hm' & Hrm).
    apply lookup_take_Some in Hm' as [Hm' _].
    assert (m' = a) by congruence. subst m'.
    rewrite !length_insert. split; [|split; [done|split; [done|split; [done|]]]].
    + exists row0, item. split; [done|]. split; [done|]. left.
      exists (S k), a, v, a2, a3. split; [lia|]. split; [done|]. split; [done|].
      split; [done|]. split.
      * intros k' m' rm' Hk' Hmk Hrk. apply (Hmin k'); [lia|].
        apply (Hdens_row k' m' rm'); [lia|done|done].
      * split; [by apply list_lookup_insert_eq|]. split; [done|]. split; [done|].
        by apply list_lookup_insert_eq.
    + intros j Hj. by rewrite !list_lookup_insert_ne.
  - (* no parent *)
    inv_ret. subst. rewrite length_insert.
    split; [|split; [done|split; [done|split; [done|]]]].
    + exists row0, item. split; [done|]. split; [done|]. right.
      split.
      * intros k m rm Hk Hm Hrm. eapply first_greater_None; [exact Hidx|].
        apply (Hdens_row k m rm); [lia|done|done].
      * split; [by apply list_lookup_insert_eq|done].
    + intros j Hj. by rewrite list_lookup_insert_ne.
Qed.

Lemma parent_spec_ext s maxdist i nnd dl nnd' dl' :
  nnd' !! i = nnd !! i → dl' !! i = dl !! i →
  parent_spec s maxdist i nnd dl → parent_spec s maxdist i nnd' dl'.
Proof.
  intros Hn Hd (row & ri & Hrow & Hri & H). exists row, ri.
  split; [done|]. split; [done|]. rewrite Hn, Hd. exact H.
Qed.

Section GradientGraph.

Variable norm : list Q → Q.

Lemma compute_delta_graph (s s' : FDC) :
  (∀ i row, nn_list s !! i = Some row → row !! 0 = Some i) →
  compute_delta norm s = Ret s' →
  ∃ maxdist, compute_maxdist norm s = Ret maxdist ∧
    length (density_graph s') = length (X s) ∧
    length (nn_delta s') = length (X s) ∧
    length (delta s') = length (X s) ∧
    (∀ i, i < length (X s) → parent_spec s maxdist i (nn_delta s') (delta s')) ∧
    idx_centers_unmerged s' =
      mask_select (seq 0 (length (X s)))
                  ((λ d, Qgtb d (center_threshold maxdist)) <$> delta s') ∧
    rho s' = rho s ∧ nn_list s' = nn_list s ∧ X s' = X s.
Proof.
  intros Hself H. unfold compute_delta in H.
  apply bind_Ret in H as (maxdist & Hmax & H).
  apply bind_Ret in H as ([[dg nnd] dl] & Hfold & H).
  injection H as <-. exists maxdist. split; [done|]. simpl.
  apply (foldM_seq_inv (delta_inv s maxdist)) in Hfold.
  - destruct Hfold as (Hdg & Hnnd & Hdl & Hspec & _). simpl in *.
    repeat split; auto.
  - intros i [[dg0 nnd0] dl0] [[dg1 nnd1] dl1] Hi (Hl1 & Hl2 & Hl3 & Hspec & Hrest) Hstep.
    simpl in *.
    destruct (delta_step_spec s maxdist _ _ _ _ _ _ _ (Hself i) Hstep)
      as (Hp & Hl1' & Hl2' & Hl3' & Hother); [apply Hrest; lia|].
    unfold delta_inv; simpl. repeat split; try congruence.
    + intros j Hj. destruct (decide (j = i)) as [->|Hne]; [done|].
      destruct (Hother j Hne) as [Hn Hd].
      eapply parent_spec_ext; [exact Hn|exact Hd|]. apply Hspec. lia.
    + intros j Hj. destruct (Hother j) as [_ Hd]; [lia|]. rewrite Hd. apply Hrest. lia.
  - unfold delta_inv; simpl. rewrite !length_replicate. repeat split; auto.
    + intros i Hi; lia.
    + intros i Hi. apply lookup_replicate_2. lia.
Qed.

Lemma compute_maxdist_returns (s : FDC) :
  wf_input s → returns (compute_maxdist norm s).
Proof.
  intros Hwf. unfold compute_maxdist.
  assert (Hext : returns (mapM (extent (X s)) (seq 0 (n_feature s)))).
  { apply mapM_returns, Forall_forall. intros i Hi. apply elem_of_seq in Hi.
    unfold extent.
    assert (Hcol : returns (mapM (λ row, getitem row i) (X s))).
    { apply mapM_returns. eapply Forall_impl; [exact (wf_X s Hwf)|].
      intros row Hrow. simpl in Hrow.
      destruct (getitem_lt row i) as (x & Hx & _); [lia|]. by exists x. }
    destruct Hcol as [col Hcol]. rewrite Hcol; simpl.
    pose proof (mapM_Ret_length _ _ _ Hcol) as Hlen.
    pose proof (wf_nonempty s Hwf).
    destruct col as [|x col]; [simpl in Hlen; lia|]. simpl. by eexists. }
  destruct Hext as [ext Hext]. rewrite Hext; simpl. by eexists.
Qed.

Lemma delta_step_returns (s : FDC) (dg : list (list nat)) (nnd : list Z) (dl : list Q) (i : nat) :
  wf_input s → i < length (X s) →
  length dg = length (X s) → length nnd = length (X s) → length dl = length (X s) →
  returns (delta_step s (dg, nnd, dl) i).
Proof.
  intros Hwf Hi Hdg Hnnd Hdl. unfold delta_step.
  destruct (lookup_lt_is_Some_2 (nn_list s) i) as [row Hrow];
    [rewrite (wf_nn_list s Hwf); lia|].
  assert (Hg : getitem (take (nh_size s) <$> nn_list s) i = Ret (take (nh_size s) row)).
  { apply getitem_Ret. by rewrite list_lookup_fmap, Hrow. }
  rewrite Hg; simpl.
  pose proof (wf_range s Hwf i row Hrow) as Hrange.
  pose proof (wf_self s Hwf i row Hrow) as Hself.
  destruct (take_idx_returns (rho s) (take (nh_size s) row)) as [dens Hdens].
  { rewrite (wf_rho s Hwf). by apply Forall_take. }
  rewrite Hdens; simpl.
  pose proof Hdens as Hf2. apply take_idx_Ret in Hf2.
  assert (Ht0 : take (nh_size s) row !! 0 = Some i).
  { apply lookup_take_Some. split; [done|]. pose proof (wf_nh_size s Hwf). lia. }
  destruct (Forall2_lookup_l _ _ _ _ _ Hf2 Ht0) as (item & Hitem & _).
  unfold index_greater. rewrite (proj2 (getitem_Ret dens 0 item) Hitem); simpl.
  destruct (first_greater (item + prec) 0 dens) as [[|k]|] eqn:Hidx; simpl.
  - rewrite setitem_lt by lia. simpl. by eexists.
  - apply first_greater_Some in Hidx as (_ & v & Hv & _).
    rewrite Nat.sub_0_r in Hv.
    destruct (Forall2_lookup_r _ _ _ _ _ Hf2 Hv) as (m & Hm & _).
    rewrite (proj2 (getitem_Ret _ _ _) Hm); simpl.
    pose proof Hm as Hm'. apply lookup_take_Some in Hm' as [Hm' Hk].
    assert (Hmn : m < length (X s)).
    { eapply Forall_lookup_1 in Hrange; [|exact Hm']. done. }
    destruct (getitem_lt dg m) as (kids & Hkids & _); [lia|].
    rewrite Hkids; simpl. rewrite setitem_lt by lia. simpl.
    destruct (getitem_lt (nn_dist s) i) as (drow & Hdrow & Hdrow');
      [rewrite (wf_nn_dist s Hwf); lia|].
    rewrite Hdrow; simpl.
    destruct (getitem_lt drow (S k)) as (d & Hd & _).
    { rewrite <- (wf_dist s Hwf i row drow Hrow Hdrow'). by eapply lookup_lt_Some. }
    rewrite Hd; simpl. rewrite setitem_lt by lia. simpl. by eexists.
  - rewrite setitem_lt by lia. simpl. by eexists.
Qed.

Lemma compute_delta_returns (s : FDC) :
  wf_input s → returns (compute_delta norm s).
Proof.
  intros Hwf. unfold compute_delta.
  destruct (compute_maxdist_returns s Hwf) as [maxdist Hmax]. rewrite Hmax; simpl.
  destruct (foldM_seq_returns
              (λ (_ : nat) (st : list (list nat) * list Z * list Q),
                 length st.1.1 = length (X s) ∧ length st.1.2 = length (X s) ∧
                 length st.2 = length (X s))
              (delta_step s) 0 (length (X s))
              (replicate (length (X s)) [], replicate (length (X s)) 1%Z,
               replicate (length (X s)) maxdist))
    as ([[dg nnd] dl] & Hfold & _).
  - intros i [[dg nnd] dl] Hi (H1 & H2 & H3); simpl in *.
    destruct (delta_step_returns s dg nnd dl i Hwf) as [[[dg' nnd'] dl'] Hstep];
      [lia|done|done|done|].
    exists (dg', nnd', dl'). split; [done|]. simpl.
    unfold delta_step in Hstep. inv_ret.
    destruct (truthy a1); inv_ret; subst; rewrite ?length_insert; auto.
  - simpl. by rewrite !length_replicate.
  - rewrite Hfold; simpl. by eexists.
Qed.

End GradientGraph.

(** ** [assign_cluster_deep] and [assign_cluster] *)

Lemma below_nil G p : ¬ below G [] p.
Proof. intros (c & Hc & _). by apply elem_of_nil in Hc. Qed.

Lemma below_cons G c rest p :
  below G (c :: rest) p ↔ basin G c p ∨ below G rest p.
Proof.
  split.
  - intros (c' & Hc & Hb). apply elem_of_cons in Hc as [->|Hc]; [by left|].
    right. by exists c'.
  - intros [Hb|(c' & Hc & Hb)].
    + exists c. split; [by left|done].
    + exists c'. split; [by right|done].
Qed.

Lemma basin_inv G c kids p :
  G !! c = Some kids → basin G c p ↔ p = c ∨ below G kids p.
Proof.
  intros HG. split.
  - intros H. apply rtc_inv in H as [->|(y & (kids' & Hk & Hy) & Hr)]; [by left|].
    right. exists y. split; [congruence|done].
  - intros [->|(y & Hy & Hr)]; [apply rtc_refl|].
    eapply rtc_l; [|exact Hr]. by exists kids.
Qed.

Lemma stamped_keeps G label root cl cl' p :
  stamped G label root cl cl' → cl !! p = Some label → cl' !! p = Some label.
Proof. intros (_ & H & _) Hp. destruct (H p) as [->|[_ ?]]; done. Qed.

Section Stamp.

Variable G : list (list nat).
Variable label : Z.

Lemma stamped_loop (d : nat) :
  (∀ root cl cl', assign_cluster_deep d root cl G label = Ret cl' →
                  stamped G label root cl cl') →
  ∀ root cl cl',
    foldM (λ cl child,
             cl' ← setitem cl child label;
             kids ← getitem G child;
             assign_cluster_deep d kids cl' G label) cl root = Ret cl' →
    stamped G label root cl cl'.
Proof.
  intros IHd root. induction root as [|c rest IH]; intros cl cl' H; simpl in H.
  - injection H as <-. split; [done|]. split; [by left|].
    intros p Hp. by apply below_nil in Hp.
  - apply bind_Ret in H as (cl2 & Hstep & H).
    apply bind_Ret in Hstep as (cl1 & Hset & Hstep).
    apply bind_Ret in Hstep as (kids & Hkids & Hdeep).
    inv_ret. subst cl1.
    apply IHd in Hdeep. apply IH in H.
    pose proof Hdeep as (Hl2 & Hch2 & Hst2). pose proof H as (Hl' & Hch' & Hst').
    assert (Hc : cl' !! c = Some label).
    { eapply stamped_keeps; [exact H|]. eapply stamped_keeps; [exact Hdeep|].
      by apply list_lookup_insert_eq. }
    split; [by rewrite Hl', Hl2, length_insert|]. split.
    + intros p. destruct (Hch' p) as [Hp|[Hb Hp]].
      * destruct (Hch2 p) as [Hp2|[Hb Hp2]].
        -- destruct (decide (p = c)) as [->|Hne].
           ++ right. split; [|done]. apply below_cons. left. apply rtc_refl.
           ++ left. by rewrite Hp, Hp2, list_lookup_insert_ne.
        -- right. split; [|congruence]. apply below_cons. left.
           apply (basin_inv G c kids p Hkids). by right.
      * right. split; [|done]. apply below_cons. by right.
    + intros p Hp. apply below_cons in Hp as [Hp|Hp]; [|by apply Hst'].
      apply (basin_inv G c kids p Hkids) in Hp as [->|Hp]; [done|].
      eapply stamped_keeps; [exact H|]. by apply Hst2.
Qed.

Lemma assign_cluster_deep_stamped (d : nat) (root : list nat) (cl cl' : list Z) :
  assign_cluster_deep d root cl G label = Ret cl' → stamped G label root cl cl'.
Proof.
  revert root cl cl'. induction d as [|d IHd]; intros root cl cl' H; simpl in H.
  - discriminate.
  - by apply (stamped_loop d IHd).
Qed.

End Stamp.

Section Forest.
Variables (G : list (list nat)) (centers : list nat) (n : nat)
          (height : nat → nat) (limit : nat).
Hypothesis HF : forest G centers n height limit.

Lemma edge_child_listed q x : edge G q x → x ∈ concat G.
Proof.
  intros (kids & Hk & Hx). apply elem_of_concat. exists kids.
  split; [by eapply list_elem_of_lookup_2|done].
Qed.

Lemma edge_unique q q' x : edge G q x → edge G q' x → q = q'.
Proof.
  intros (kids & Hk & Hx) (kids' & Hk' & Hx').
  pose proof (forest_unique _ _ _ _ _ HF) as Hnd.
  apply NoDup_app in Hnd as (Hnd & _ & _).
  by eapply NoDup_concat_lookup.
Qed.

Lemma center_no_parent q c : c ∈ centers → ¬ edge G q c.
Proof.
  intros Hc He. pose proof (forest_unique _ _ _ _ _ HF) as Hnd.
  apply NoDup_app in Hnd as (_ & Hdisj & _).
  by apply (Hdisj c (edge_child_listed _ _ He)).
Qed.

Lemma edge_range q x : edge G q x → q < n ∧ x < n.
Proof.
  intros He. split.
  - destruct He as (kids & Hk & _). apply lookup_lt_Some in Hk.
    by rewrite (forest_length _ _ _ _ _ HF) in Hk.
  - apply (forest_range _ _ _ _ _ HF). apply elem_of_app. left.
    by eapply edge_child_listed.
Qed.

Lemma basin_center_unique c c' p :
  c ∈ centers → c' ∈ centers → basin G c p → basin G c' p → c = c'.
Proof.
  intros Hc Hc' Hb. revert c' Hc'. unfold basin in *.
  revert p Hb. apply (rtc_ind_r (λ p, ∀ c', c' ∈ centers → rtc (edge G) c' p → c = c')).
  - intros c' Hc' Hb'.
    apply rtc_inv_r in Hb' as [->|(y & _ & He)]; [done|].
    by apply center_no_parent in He.
  - intros y p Hcy Hyp IH c' Hc' Hb'.
    apply rtc_inv_r in Hb' as [->|(y' & Hcy' & He)].
    + by apply center_no_parent in Hyp.
    + assert (y = y') by (by eapply edge_unique). subst y'. by apply IH.
Qed.

Lemma basin_cover p : p < n → ∃ c, c ∈ centers ∧ basin G c p.
Proof.
  remember (limit - height p) as k eqn:Hk. revert p Hk.
  induction k as [k IH] using lt_wf_ind. intros p Hk Hp.
  destruct (proj1 (elem_of_app _ _ _) (forest_cover _ _ _ _ _ HF p Hp)) as [Hin|Hin].
  - apply elem_of_concat in Hin as (kids & Hkids & Hx).
    apply list_elem_of_lookup in Hkids as (q & Hq).
    assert (He : edge G q p) by (by exists kids).
    destruct (edge_range _ _ He) as [Hqn _].
    pose proof (forest_height _ _ _ _ _ HF q p He).
    pose proof (forest_depth _ _ _ _ _ HF q Hqn).
    destruct (IH (limit - height q)) with (p := q) as (c & Hc & Hb); [lia|done|done|].
    exists c. split; [done|]. eapply rtc_r; [exact Hb|done].
  - exists p. split; [done|]. apply rtc_refl.
Qed.

Lemma basin_range c p : c < n → basin G c p → p < n.
Proof.
  intros Hc Hb. induction Hb as [|x y z He _ IH]; [done|].
  apply IH. by apply edge_range in He as [_ ?].
Qed.

Lemma assign_cluster_deep_returns (label : Z) (d : nat) (root : list nat) (cl : list Z) :
  1 ≤ d → (∀ c, c ∈ root → c < n ∧ height c + 2 ≤ d) → length cl = n →
  returns (assign_cluster_deep d root cl G label).
Proof.
  revert root cl. induction d as [|d IH]; intros root cl Hd Hroot Hcl; [lia|].
  simpl.
  destruct (foldM_returns (λ cl, length cl = n)
    (λ cl child, cl' ← setitem cl child label; kids ← getitem G child;
                 assign_cluster_deep d kids cl' G label) root cl)
    as (cl' & Hcl' & _); [|done|by exists cl'].
  intros x c Hc Hx. destruct (Hroot c Hc) as [Hcn Hh].
  rewrite setitem_lt by lia. simpl.
  destruct (getitem_lt G c) as (kids & Hkids & Hkids');
    [by rewrite (forest_length _ _ _ _ _ HF)|].
  rewrite Hkids; simpl.
  destruct (IH kids (<[c:=label]> x)) as [y Hy].
  - lia.
  - intros k Hk. assert (He : edge G c k) by (by exists kids).
    pose proof (forest_height _ _ _ _ _ HF c k He).
    destruct (edge_range _ _ He). split; [done|lia].
  - by rewrite length_insert.
  - exists y. split; [done|].
    apply assign_cluster_deep_stamped in Hy as (Hl & _). by rewrite Hl, length_insert.
Qed.

End Forest.

Section Labels.

Variable recursion_limit : nat.

Lemma assign_cluster_spec (centers : list nat) (nn_delta : list Z)
    (G : list (list nat)) (height : nat → nat) :
  forest G centers (length nn_delta) height recursion_limit →
  ∃ cl, assign_cluster recursion_limit centers nn_delta G = Ret cl ∧
        length cl = length nn_delta ∧
        ∀ j c p, centers !! j = Some c → basin G c p → cl !! p = Some (Z.of_nat j).
Proof.
  intros HF. unfold assign_cluster.
  set (n := length nn_delta) in *.
  set (l := zip centers (seq 0 (length centers))).
  destruct (foldM_prefix_returns
    (λ pre cl, length cl = n ∧
       ∀ c j p, (c, j) ∈ pre → basin G c p → cl !! p = Some (Z.of_nat j))
    (λ cl (p : nat * nat), let '(c, label) := p in
       cl' ← setitem cl c (Z.of_nat label); kids ← getitem G c;
       assign_cluster_deep recursion_limit kids cl' G (Z.of_nat label))
    l (replicate n (-1)%Z)) as (cl & Hcl & Hlen & Hlab).
  - intros pre [c j] post x Hl [Hx Hpre].
    assert (Hcs : centers = pre.*1 ++ c :: post.*1).
    { rewrite <- (fst_zip centers (seq 0 (length centers))) by (rewrite length_seq; lia).
      fold l. by rewrite Hl, fmap_app. }
    pose proof (forest_unique _ _ _ _ _ HF) as Hnd.
    apply NoDup_app in Hnd as (_ & _ & Hnd). rewrite Hcs in Hnd.
    apply NoDup_app in Hnd as (_ & Hfresh & _).
    assert (Hc : c ∈ centers) by (rewrite Hcs; apply elem_of_app; right; by left).
    assert (Hcn : c < n).
    { apply (forest_range _ _ _ _ _ HF). apply elem_of_app. by right. }
    rewrite setitem_lt by lia. simpl.
    destruct (getitem_lt G c) as (kids & Hkids & Hkids');
      [by rewrite (forest_length _ _ _ _ _ HF)|].
    rewrite Hkids; simpl.
    destruct (assign_cluster_deep_returns G centers n height recursion_limit HF
                (Z.of_nat j) recursion_limit kids (<[c:=Z.of_nat j]> x)) as [y Hy].
    + pose proof (forest_depth _ _ _ _ _ HF c Hcn). lia.
    + intros k Hk. assert (He : edge G c k) by (by exists kids).
      destruct (edge_range G centers n height recursion_limit HF _ _ He) as [_ Hkn].
      split; [done|]. by apply (forest_depth _ _ _ _ _ HF).
    + by rewrite length_insert.
    + exists y. split; [done|].
      apply assign_cluster_deep_stamped in Hy. pose proof Hy as (Hl' & Hch & Hst).
      split; [by rewrite Hl', length_insert|].
      intros c' j' p Hin Hb. apply elem_of_app in Hin as [Hin|Hin].
      * assert (Hc'pre : c' ∈ pre.*1).
        { apply list_elem_of_fmap. by exists (c', j'). }
        assert (Hne : c' ≠ c).
        { intros ->. apply (Hfresh c Hc'pre). by left. }
        assert (Hc' : c' ∈ centers) by (rewrite Hcs; apply elem_of_app; by left).
        assert (Hnb : ¬ basin G c p).
        { intros Hb'. apply Hne.
          by apply (basin_center_unique G centers n height recursion_limit HF c' c p). }
        destruct (Hch p) as [Hp|[Hbel _]].
        -- rewrite Hp, list_lookup_insert_ne.
           ++ by apply (Hpre c' j').
           ++ intros ->. apply Hnb. apply rtc_refl.
        -- exfalso. apply Hnb. apply (basin_inv G c kids p Hkids'). by right.
      * apply list_elem_of_singleton in Hin as [= -> ->].
        apply (basin_inv G c kids p Hkids') in Hb as [->|Hb]; [|by apply Hst].
        eapply stamped_keeps; [exact Hy|]. apply list_lookup_insert_eq. lia.
  - split; [by rewrite length_replicate|]. intros c j p Hin. by apply elem_of_nil in Hin.
  - exists cl. split; [done|]. split; [done|].
    intros j c p Hj Hb. apply (Hlab c j p); [|done].
    apply list_elem_of_lookup. exists j. by apply zip_seq_lookup.
Qed.

End Labels.

(** ** [FDC.find_NH_tree_search] *)

Section Round.
Variables (s : FDC) (cluster_label : list Z) (current_label : Z) (eta : Q).
Variable P : nat → Prop.
Hypothesis P_admits :
  ∀ leaf nn, P leaf → admits s cluster_label current_label eta leaf nn → P nn.

Local Abbreviation admits := (admits s cluster_label current_label eta).
Local Abbreviation expanded := (expanded s cluster_label current_label eta).
Local Abbreviation grown := (grown s P).

Lemma visit_nn_Ret (NH1 NH2 : gset nat) (new1 new2 : list nat) (nn : nat) :
  visit_nn s eta (NH1, new1) nn = Ret (NH2, new2) →
  ∃ r, rho s !! nn = Some r ∧
    (((eta < r)%Q ∧ (nn ∉ NH1) ∧ NH2 = {[nn]} ∪ NH1 ∧ new2 = new1 ++ [nn]) ∨
     (((r <= eta)%Q ∨ nn ∈ NH1) ∧ NH2 = NH1 ∧ new2 = new1)).
Proof.
  unfold visit_nn. intros H. apply bind_Ret in H as (r & Hr & H).
  apply getitem_Ret in Hr. exists r. split; [done|].
  destruct (Qgtb r eta) eqn:Hgt; simpl in H.
  - destruct (bool_decide (nn ∉ NH1)) eqn:Hin; simpl in H; injection H as <- <-.
    + left. apply Qgtb_true in Hgt. apply bool_decide_eq_true in Hin. done.
    + right. apply bool_decide_eq_false in Hin. apply dec_stable in Hin. auto.
  - injection H as <- <-. right. apply Qgtb_false in Hgt. auto.
Qed.

Lemma visit_nn_grown (NH0 : gset nat) (st st' : gset nat * list nat) (leaf nn : nat) (row : list nat) :
  P leaf →
  cluster_label !! leaf = Some current_label →
  nn_list s !! leaf = Some row → nn ∈ slice 1 (search_size s) row →
  grown NH0 st → visit_nn s eta st nn = Ret st' →
  grown NH0 st' ∧ st.1 ⊆ st'.1 ∧
  (∀ r, rho s !! nn = Some r → (eta < r)%Q → nn ∈ st'.1).
Proof.
  intros HP Hcl Hrow Hnn [Heq Hnew] H.
  destruct st as [NH1 new1], st' as [NH2 new2]; simpl in *.
  apply visit_nn_Ret in H as (r & Hr & [(Hgt & Hnin & -> & ->)|(Hno & -> & ->)]).
  - split; [|split].
    + split; simpl.
      * rewrite Heq, list_to_set_app_L. simpl. set_solver.
      * intros x Hx. apply elem_of_app in Hx as [Hx|Hx]; [by apply Hnew|].
        apply list_elem_of_singleton in Hx as ->.
        split; [set_solver|]. split; [by eapply lookup_lt_Some|].
        apply (P_admits leaf); [done|]. by exists row, r.
    + set_solver.
    + intros; set_solver.
  - split; [done|]. split; [done|].
    intros r' Hr' Hgt. destruct Hno as [Hle|Hin]; [|done].
    assert (r' = r) by congruence. subst r'. exfalso. by eapply Qlt_not_le.
Qed.

Lemma expand_leaf_grown (NH0 : gset nat) (st st' : gset nat * list nat) (leaf : nat) :
  P leaf → grown NH0 st →
  expand_leaf s eta cluster_label current_label st leaf = Ret st' →
  grown NH0 st' ∧ st.1 ⊆ st'.1 ∧ expanded leaf st'.1.
Proof.
  intros HP Hst H. unfold expand_leaf in H.
  apply bind_Ret in H as (l & Hl & H). apply getitem_Ret in Hl.
  destruct (bool_decide (l = current_label)) eqn:Hlab.
  - apply bool_decide_eq_true in Hlab. subst l.
    apply bind_Ret in H as (row & Hrow & H). apply getitem_Ret in Hrow.
    apply (foldM_prefix_inv
      (λ pre st', grown NH0 st' ∧ st.1 ⊆ st'.1 ∧
         ∀ nn r, nn ∈ pre → rho s !! nn = Some r → (eta < r)%Q → nn ∈ st'.1)) in H.
    + destruct H as (Hg & Hsub & Hall). split; [done|]. split; [done|].
      intros nn (row' & r & _ & Hrow' & Hnn & Hr & Hgt).
      assert (row' = row) by congruence. subst row'. by eapply Hall.
    + intros pre nn post x y Hsl (Hg & Hsub & Hall) Hadm.
      assert (Hnn : nn ∈ slice 1 (search_size s) row).
      { rewrite Hsl. apply elem_of_app. right. by left. }
      destruct (visit_nn_grown NH0 x y leaf nn row HP Hl Hrow Hnn Hg Hadm)
        as (Hg' & Hsub' & Hnew).
      split; [done|]. split; [set_solver|].
      intros nn' r Hin Hr Hgt. apply elem_of_app in Hin as [Hin|Hin].
      * apply Hsub'. by eapply Hall.
      * apply list_elem_of_singleton in Hin as ->. by eapply Hnew.
    + split; [done|]. split; [done|]. intros nn r Hin. by apply elem_of_nil in Hin.
  - injection H as <-. split; [done|]. split; [done|].
    apply bool_decide_eq_false in Hlab.
    intros nn (row & r & Hcl & _). congruence.
Qed.

Lemma expand_leaves_grown (NH0 : gset nat) (leaves : list nat) (st' : gset nat * list nat) :
  (∀ x, x ∈ leaves → P x) →
  foldM (expand_leaf s eta cluster_label current_label) (NH0, []) leaves = Ret st' →
  grown NH0 st' ∧ ∀ leaf, leaf ∈ leaves → expanded leaf st'.1.
Proof.
  intros HP H.
  apply (foldM_prefix_inv
    (λ pre st', grown NH0 st' ∧ ∀ leaf, leaf ∈ pre → expanded leaf st'.1)) in H.
  - done.
  - intros pre leaf post x y Hl [Hg Hall] Hexp.
    assert (Hleaf : leaf ∈ leaves).
    { rewrite Hl. apply elem_of_app. right. by left. }
    destruct (expand_leaf_grown NH0 x y leaf (HP leaf Hleaf) Hg Hexp) as (Hg' & Hsub & He).
    split; [done|]. intros leaf' Hin. apply elem_of_app in Hin as [Hin|Hin].
    + intros nn Hnn. apply Hsub. by apply (Hall leaf').
    + by apply list_elem_of_singleton in Hin as ->.
  - split.
    + split; simpl; [set_solver|]. intros x Hx. by apply elem_of_nil in Hx.
    + intros leaf Hin. by apply elem_of_nil in Hin.
Qed.

End Round.

Section Search.
Variables (s : FDC) (cluster_label : list Z) (current_label : Z) (eta : Q).

Local Abbreviation admits := (admits s cluster_label current_label eta).
Local Abbreviation expanded := (expanded s cluster_label current_label eta).
Local Abbreviation reach := (reach s cluster_label current_label eta).
Local Abbreviation search_inv := (search_inv s cluster_label current_label eta).
Local Abbreviation loop := (λ fuel, tree_search_loop fuel s eta cluster_label current_label).

Lemma expand_leaf_fuel st leaf :
  expand_leaf s eta cluster_label current_label st leaf ≠ OutOfFuel.
Proof.
  unfold expand_leaf. apply bind_fuel; [apply getitem_fuel|]. intros l.
  destruct (bool_decide _); [|done].
  apply bind_fuel; [apply getitem_fuel|]. intros row.
  apply foldM_fuel. intros [NH new] nn. unfold visit_nn.
  apply bind_fuel; [apply getitem_fuel|]. intros r. by destruct (_ && _).
Qed.

Lemma search_inv_closed (start : list nat) (NH : gset nat) :
  search_inv start [] NH → ∀ x, x ∈ NH ↔ reach start x.
Proof.
  intros (Hsound & Hstart & _ & Hexp) x. split; [apply Hsound|].
  induction 1 as [x Hx|leaf nn _ IH Hadm]; [by apply Hstart|].
  apply (Hexp leaf); [done| |done]. apply not_elem_of_nil.
Qed.

Lemma search_inv_round (start leaves new : list nat) (NH NH' : gset nat) :
  search_inv start leaves NH →
  foldM (expand_leaf s eta cluster_label current_label) (NH, []) leaves = Ret (NH', new) →
  search_inv start new NH'.
Proof.
  intros (Hsound & Hstart & Hleaves & Hexp) H.
  apply (expand_leaves_grown s cluster_label current_label eta (reach start)) in H.
  - destruct H as [[Heq Hnew] Hdone]; simpl in *.
    assert (Hsub : NH ⊆ NH') by (rewrite Heq; apply union_subseteq_l).
    split; [|split; [|split]].
    + intros x Hx. rewrite Heq in Hx. apply elem_of_union in Hx as [Hx|Hx]; [by apply Hsound|].
      apply elem_of_list_to_set in Hx. by apply Hnew.
    + intros x Hx. by apply Hsub, Hstart.
    + intros x Hx. rewrite Heq. apply elem_of_union. right. by apply elem_of_list_to_set.
    + intros leaf Hleaf Hnot. rewrite Heq in Hleaf.
      apply elem_of_union in Hleaf as [Hleaf|Hleaf];
        [|by apply elem_of_list_to_set in Hleaf].
      destruct (decide (leaf ∈ leaves)) as [Hin|Hout]; [by apply Hdone|].
      intros nn Hnn. apply Hsub. by apply (Hexp leaf).
  - intros leaf nn Hr Hadm. by eapply reach_admit.
  - intros x Hx. by apply Hsound, Hleaves.
Qed.

(** The loop computes the least fixed point when it returns. *)
Lemma tree_search_loop_reach (start : list nat) (fuel : nat) (leaves : list nat)
    (NH NHf : gset nat) :
  search_inv start leaves NH →
  loop fuel leaves NH = Ret NHf →
  ∀ x, x ∈ NHf ↔ reach start x.
Proof.
  revert leaves NH. induction fuel as [|fuel IH]; intros leaves NH Hinv H.
  - destruct leaves; simpl in H; [|discriminate].
    injection H as <-. by apply search_inv_closed.
  - destruct leaves as [|leaf leaves].
    { simpl in H. injection H as <-. by apply search_inv_closed. }
    cbn [tree_search_loop] in H.
    apply bind_Ret in H as ([NH' new] & Hround & H).
    eapply IH; [|exact H]. by eapply search_inv_round.
Qed.

Lemma unvisited_round (leaves new : list nat) (NH NH' : gset nat) :
  foldM (expand_leaf s eta cluster_label current_label) (NH, []) leaves = Ret (NH', new) →
  new ≠ [] → unvisited s NH' < unvisited s NH.
Proof.
  intros H Hne.
  apply (expand_leaves_grown s cluster_label current_label eta (λ _, True)) in H; [|done|done].
  destruct H as [[Heq Hnew] _]; simpl in *.
  destruct new as [|x new]; [done|].
  destruct (Hnew x) as (Hx & Hlt & _); [by left|].
  unfold unvisited. apply (subset_size (C:=gset nat)). apply strict_spec_alt. split.
  - rewrite Heq. set_solver.
  - intros Hset. assert (Hin : x ∈ (set_seq 0 (length (rho s)) ∖ NH : gset nat)).
    { apply elem_of_difference. split; [|done]. apply elem_of_set_seq. lia. }
    rewrite <- Hset in Hin. apply elem_of_difference in Hin as [_ Hin].
    apply Hin. rewrite Heq. set_solver.
Qed.

Lemma tree_search_loop_fuel (fuel : nat) (leaves : list nat) (NH : gset nat) :
  unvisited s NH < fuel → loop fuel leaves NH ≠ OutOfFuel.
Proof.
  revert leaves NH. induction fuel as [|fuel IH]; intros leaves NH Hfuel; [lia|].
  destruct leaves as [|leaf leaves]; [done|].
  cbn [tree_search_loop].
  destruct (foldM _ _ _) as [e|[NH' new]|] eqn:Hround; simpl.
  - done.
  - destruct new as [|x new]; [by destruct fuel|].
    apply IH. apply unvisited_round in Hround; [lia|done].
  - by apply foldM_fuel in Hround; [|apply expand_leaf_fuel].
Qed.

Lemma unvisited_le (NH : gset nat) : unvisited s NH ≤ length (rho s).
Proof.
  unfold unvisited. rewrite <- (size_set_seq (C:=gset nat) 0 (length (rho s))) at 2.
  apply subseteq_size. set_solver.
Qed.

End Search.

Section TreeSearch.
Variables (s : FDC) (cluster_label : list Z).

Lemma find_NH_tree_search_reach (idx : nat) (eta : Q) (NH : list nat) :
  find_NH_tree_search s idx eta cluster_label = Ret NH →
  ∃ row cur, nn_list s !! idx = Some row ∧ cluster_label !! idx = Some cur ∧
    NoDup NH ∧
    ∀ x, x ∈ NH ↔ reach s cluster_label cur eta (slice 1 (nh_size s) row) x.
Proof.
  unfold find_NH_tree_search. intros H.
  apply bind_Ret in H as (row & Hrow & H). apply getitem_Ret in Hrow.
  apply bind_Ret in H as (cur & Hcur & H). apply getitem_Ret in Hcur.
  apply bind_Ret in H as (NHf & Hloop & H). injection H as <-.
  exists row, cur. split; [done|]. split; [done|]. split; [apply NoDup_elements|].
  intros x. rewrite elem_of_elements.
  eapply tree_search_loop_reach; [|exact Hloop].
  split; [|split; [|split]].
  - intros y Hy. apply reach_start. by apply elem_of_list_to_set in Hy.
  - intros y Hy. by apply elem_of_list_to_set.
  - intros y Hy. by apply elem_of_list_to_set.
  - intros leaf Hleaf Hnot. by apply elem_of_list_to_set in Hleaf.
Qed.

Lemma find_NH_tree_search_fuel (idx : nat) (eta : Q) :
  find_NH_tree_search s idx eta cluster_label ≠ OutOfFuel.
Proof.
  unfold find_NH_tree_search.
  apply bind_fuel; [apply getitem_fuel|]. intros row.
  apply bind_fuel; [apply getitem_fuel|]. intros cur.
  apply bind_fuel; [|done].
  apply tree_search_loop_fuel. pose proof (unvisited_le s (list_to_set (slice 1 (nh_size s) row))). lia.
Qed.

Hypothesis Hwf : wf_input s.
Hypothesis Hcl : length cluster_label = length (X s).

Lemma expand_leaf_returns (eta : Q) (cur : Z) (st : gset nat * list nat) (leaf : nat) :
  leaf < length (X s) →
  returns (expand_leaf s eta cluster_label cur st leaf).
Proof.
  intros Hleaf. unfold expand_leaf.
  destruct (getitem_lt cluster_label leaf) as (l & Hl & _); [lia|].
  rewrite Hl; simpl. destruct (bool_decide (l = cur)); [|by eexists].
  destruct (getitem_lt (nn_list s) leaf) as (row & Hrow & Hrow');
    [rewrite (wf_nn_list s Hwf); lia|].
  rewrite Hrow; simpl.
  destruct (foldM_returns (λ _, True) (visit_nn s eta) (slice 1 (search_size s) row) st)
    as (st' & Hst' & _); [|done|by exists st'].
  intros [NH new] nn Hnn _. unfold visit_nn.
  assert (Hlt : nn < length (rho s)).
  { rewrite (wf_rho s Hwf). apply elem_of_slice in Hnn.
    pose proof (wf_range s Hwf leaf row Hrow') as Hr.
    by apply (proj1 (Forall_forall _ _) Hr). }
  destruct (getitem_lt (rho s) nn Hlt) as (r & Hr & _). rewrite Hr; simpl.
  destruct (_ && _); by eexists.
Qed.

Lemma tree_search_loop_returns (eta : Q) (cur : Z) (fuel : nat) (leaves : list nat)
    (NH : gset nat) :
  (∀ x, x ∈ leaves → x < length (X s)) → unvisited s NH < fuel →
  returns (tree_search_loop fuel s eta cluster_label cur leaves NH).
Proof.
  revert leaves NH. induction fuel as [|fuel IH]; intros leaves NH Hleaves Hfuel; [lia|].
  destruct leaves as [|leaf leaves]; [by eexists|].
  cbn [tree_search_loop].
  destruct (foldM_returns (λ _, True) (expand_leaf s eta cluster_label cur)
              (leaf :: leaves) (NH, [])) as ([NH' new] & Hround & _); [|done|].
  { intros st x Hx _. destruct (expand_leaf_returns eta cur st x) as [y Hy];
      [by apply Hleaves|]. by exists y. }
  rewrite Hround; simpl.
  pose proof Hround as Hg.
  apply (expand_leaves_grown s cluster_label cur eta (λ _, True)) in Hg; [|done|done].
  destruct Hg as [[_ Hnew] _]; simpl in Hnew.
  destruct new as [|x new]; [by destruct fuel; eexists|].
  apply IH.
  - intros y Hy. destruct (Hnew y Hy) as (_ & Hlt & _). by rewrite <- (wf_rho s Hwf).
  - apply unvisited_round in Hround; [lia|done].
Qed.

Lemma find_NH_tree_search_returns (idx : nat) (eta : Q) :
  idx < length (X s) → returns (find_NH_tree_search s idx eta cluster_label).
Proof.
  intros Hidx. unfold find_NH_tree_search.
  destruct (getitem_lt (nn_list s) idx) as (row & Hrow & Hrow');
    [rewrite (wf_nn_list s Hwf); lia|].
  rewrite Hrow; cbn -[tree_search_loop].
  destruct (getitem_lt cluster_label idx) as (cur & Hcur & _); [lia|].
  rewrite Hcur; cbn -[tree_search_loop].
  destruct (tree_search_loop_returns eta cur (S (length (rho s)))
              (slice 1 (nh_size s) row) (list_to_set (slice 1 (nh_size s) row)))
    as [NH HNH].
  - intros x Hx. apply elem_of_slice in Hx.
    pose proof (wf_range s Hwf idx row Hrow') as Hr.
    by apply (proj1 (Forall_forall _ _) Hr).
  - pose proof (unvisited_le s (list_to_set (slice 1 (nh_size s) row))). lia.
  - rewrite HNH; cbn -[tree_search_loop]. by eexists.
Qed.

End TreeSearch.

(** ** [check_cluster_stability] *)

Lemma argmax_from_spec (best_i : nat) (best : Q) (i : nat) (a : list Q) :
  ∃ v, let k := argmax_from best_i best i a in
    ((k = best_i ∧ v = best) ∨ (i ≤ k ∧ a !! (k - i) = Some v)) ∧
    (best <= v)%Q ∧ ∀ j w, a !! j = Some w → (w <= v)%Q.
Proof.
  revert best_i best i. induction a as [|x a IH]; intros best_i best i; simpl.
  - exists best. split; [by left|]. split; [apply Qle_refl|].
    intros j w. by rewrite lookup_nil.
  - destruct (Qgtb x best) eqn:Hgt.
    + apply Qgtb_true in Hgt.
      destruct (IH i x (S i)) as (v & Hk & Hle & Hall). exists v.
      split; [|split].
      * right. destruct Hk as [[-> ->]|[Hk Hv]].
        -- split; [lia|]. by rewrite Nat.sub_diag.
        -- split; [lia|]. by replace (argmax_from i x (S i) a - i)
                             with (S (argmax_from i x (S i) a - S i)) by lia.
      * eapply Qle_trans; [apply Qlt_le_weak, Hgt|done].
      * intros [|j] w; simpl; [by intros [= <-]|apply Hall].
    + apply Qgtb_false in Hgt.
      destruct (IH best_i best (S i)) as (v & Hk & Hle & Hall). exists v.
      split; [|split; [done|]].
      * destruct Hk as [Hk|[Hk Hv]]; [by left|]. right. split; [lia|].
        by replace (argmax_from best_i best (S i) a - i)
             with (S (argmax_from best_i best (S i) a - S i)) by lia.
      * intros [|j] w; simpl; [|apply Hall].
        intros [= <-]. by eapply Qle_trans.
Qed.

Lemma np_argmax_Ret (a : list Q) (k : nat) :
  np_argmax a = Ret k →
  ∃ v, a !! k = Some v ∧ ∀ j w, a !! j = Some w → (w <= v)%Q.
Proof.
  destruct a as [|x a]; simpl; [discriminate|]. intros [= <-].
  destruct (argmax_from_spec 0 x 1 a) as (v & Hk & Hle & Hall). simpl in Hk.
  exists v. split.
  - destruct Hk as [[-> ->]|[Hk Hv]]; [done|].
    by replace (argmax_from 0 x 1 a) with (S (argmax_from 0 x 1 a - 1)) by lia.
  - intros [|j] w; simpl; [by intros [= <-]|apply Hall].
Qed.

Lemma elem_of_np_unique (a : list Z) (l : Z) : l ∈ np_unique a ↔ l ∈ a.
Proof.
  unfold np_unique. rewrite merge_sort_Permutation. apply elem_of_remove_dups.
Qed.

Lemma np_unique_nil_inv (a : list Z) : np_unique a = [] → a = [].
Proof.
  intros H. destruct a as [|l a]; [done|].
  assert (Hl : l ∈ np_unique (l :: a)) by (apply elem_of_np_unique; by left).
  rewrite H in Hl. by apply elem_of_nil in Hl.
Qed.

Lemma getitem_Z_nonneg {A} (a : list A) (l : Z) :
  (0 ≤ l)%Z → getitem_Z a l = getitem a (Z.to_nat l).
Proof. intros H. unfold getitem_Z. by destruct (decide (0 ≤ l)%Z). Qed.

Lemma take_idx_Z_Ret {A} (a : list A) (idxs : list Z) (k : list A) :
  take_idx_Z a idxs = Ret k →
  idxs ≠ [] ∧ Forall2 (λ l x, getitem_Z a l = Ret x) idxs k.
Proof.
  unfold take_idx_Z. destruct idxs as [|l idxs]; [discriminate|].
  intros H. split; [done|]. by apply mapM_Ret.
Qed.

Section IdxMax.
Variable s : FDC.

Lemma find_idx_max_densest (NH : list nat) (m : nat) :
  recognized s NH →
  find_idx_max s (idx_centers_unmerged s) NH = Ret m →
  densest_center s NH m.
Proof.
  intros Hrec H. unfold find_idx_max in H.
  apply bind_Ret in H as (labels & Hlabels & H).
  apply bind_Ret in H as (cs & Hcs & H).
  apply bind_Ret in H as (dens & Hdens & H).
  apply bind_Ret in H as (k & Hk & H).
  apply bind_Ret in H as (l & Hl & H).
  apply mapM_Ret in Hlabels. apply take_idx_Z_Ret in Hcs as [_ Hcs].
  apply take_idx_Ret in Hdens. apply np_argmax_Ret in Hk as (v & Hv & Hmax).
  apply getitem_Ret in Hl.
  assert (Hlab : ∀ l', l' ∈ np_unique labels →
            ∃ ni, ni ∈ NH ∧ cluster_label s !! ni = Some l').
  { intros l' Hl'. apply (proj1 (elem_of_np_unique _ _)) in Hl'.
    apply list_elem_of_lookup in Hl' as [j Hj].
    destruct (Forall2_lookup_r _ _ _ _ _ Hlabels Hj) as (ni & Hni & Hg).
    exists ni. split; [by eapply list_elem_of_lookup_2|by apply getitem_Ret]. }
  destruct (Hlab l) as (ni & Hni & Hcl); [by eapply list_elem_of_lookup_2|].
  destruct (Hrec ni l Hni Hcl) as [Hl0 _].
  rewrite getitem_Z_nonneg in H by done. apply getitem_Ret in H.
  destruct (Forall2_lookup_r _ _ _ _ _ Hdens Hv) as (c & Hc & Hrc).
  destruct (Forall2_lookup_r _ _ _ _ _ Hcs Hc) as (l0 & Hl0' & Hgc).
  assert (l0 = l) by congruence. subst l0.
  rewrite getitem_Z_nonneg in Hgc by done. apply getitem_Ret in Hgc.
  assert (c = m) by congruence. subst c.
  exists ni, l, v. split; [done|]. split; [done|]. split; [done|]. split; [done|].
  intros ni' l' c r Hni' Hcl' Hc' Hr.
  assert (Hin : l' ∈ np_unique labels).
  { apply elem_of_np_unique.
    apply list_elem_of_lookup in Hni' as [j Hj].
    destruct (Forall2_lookup_l _ _ _ _ _ Hlabels Hj) as (l'' & Hl'' & Hg).
    apply getitem_Ret in Hg. assert (l'' = l') by congruence. subst l''.
    by eapply list_elem_of_lookup_2. }
  apply list_elem_of_lookup in Hin as [j Hj].
  destruct (Forall2_lookup_l _ _ _ _ _ Hcs Hj) as (c' & Hcj & Hgc').
  destruct (Hrec ni' l' Hni' Hcl') as [Hl'0 _].
  rewrite getitem_Z_nonneg in Hgc' by done. apply getitem_Ret in Hgc'.
  assert (c' = c) by congruence. subst c'.
  destruct (Forall2_lookup_l _ _ _ _ _ Hdens Hcj) as (r' & Hrj & Hr').
  assert (r' = r) by congruence. subst r'.
  by apply (Hmax j).
Qed.

End IdxMax.

Lemma demote_test_true (ri rm : Q) (idx m : nat) :
  demote_test ri rm idx m = true ↔ (ri < rm)%Q ∧ idx ≠ m.
Proof.
  unfold demote_test. rewrite andb_true_iff, Qgtb_true, bool_decide_eq_true. done.
Qed.

Lemma set_graph_id (s : FDC) : set_graph s (delta s) (nn_delta s) (density_graph s) = s.
Proof. by destruct s. Qed.

Section Pass.
Variable norm : list Q → Q.
Variables (s : FDC) (threshold : Q).

Lemma stability_step_Ret (st st' : pass_state) (idx : nat) :
  stability_step norm s threshold st idx = Ret st' →
  ∃ m ri rm,
    verdict s threshold idx = Ret (m, demote_test ri rm idx m) ∧
    rho s !! idx = Some ri ∧ rho s !! m = Some rm ∧
    ((demote_test ri rm idx m = true ∧
      idx < length (p_nn_delta st) ∧ idx < length (p_delta st) ∧
      ∃ x_max x_idx kids,
        X s !! m = Some x_max ∧ X s !! idx = Some x_idx ∧
        p_density_graph st !! m = Some kids ∧
        st' = mkPass (<[idx := Z.of_nat m]> (p_nn_delta st))
                     (<[idx := norm (vsub x_max x_idx)]> (p_delta st))
                     (<[m := kids ++ [idx]]> (p_density_graph st))
                     (S (n_false_pos st)) (idx_true_centers st))
     ∨ (demote_test ri rm idx m = false ∧
        st' = mkPass (p_nn_delta st) (p_delta st) (p_density_graph st)
                     (n_false_pos st) (idx_true_centers st ++ [idx]))).
Proof.
  unfold stability_step, verdict. intros H.
  apply bind_Ret in H as (NH & HNH & H). rewrite HNH; simpl.
  apply bind_Ret in H as (m & Hm & H). rewrite Hm; simpl.
  apply bind_Ret in H as (ri & Hri & H). rewrite Hri; simpl.
  apply bind_Ret in H as (rm & Hrm & H). rewrite Hrm; simpl.
  apply getitem_Ret in Hri. apply getitem_Ret in Hrm.
  exists m, ri, rm. split; [done|]. split; [done|]. split; [done|].
  destruct (demote_test ri rm idx m).
  - left. inv_ret. subst. split; [done|]. split; [done|]. split; [done|].
    by exists a0, a1, a3.
  - right. by injection H as <-.
Qed.

Local Abbreviation pass_inv := (pass_inv s threshold).

Lemma stability_step_inv (pre : list nat) (st st' : pass_state) (idx : nat) :
  pass_inv pre st → stability_step norm s threshold st idx = Ret st' →
  pass_inv (pre ++ [idx]) st'.
Proof.
  intros (Hc & Hn & Hl1 & Hl2 & Hl3 & Hz) H.
  apply stability_step_Ret in H as (m & ri & rm & Hv & _ & _ & Hcase).
  unfold pass_inv. rewrite filter_app, length_app. simpl.
  destruct Hcase as [(Ht & _ & _ & x_max & x_idx & kids & _ & _ & _ & ->)
                    |(Ht & ->)]; simpl.
  - rewrite filter_cons_False, filter_nil, app_nil_r.
    + rewrite !length_insert. repeat split; try done; try lia.
    + unfold is_kept. rewrite Hv, Ht. done.
  - rewrite filter_cons_True, filter_nil.
    + rewrite length_app. simpl.
      split; [by rewrite Hc|]. split; [lia|]. done.
    + unfold is_kept. by rewrite Hv, Ht.
Qed.

Lemma check_cluster_stability_Ret (s' : FDC) (centers : list nat) (n_fp : nat) :
  check_cluster_stability norm s threshold = Ret (s', centers, n_fp) →
  centers = filter (λ i, is_kept s threshold i = true) (idx_centers_unmerged s) ∧
  n_fp + length centers = length (idx_centers_unmerged s) ∧
  same_view s s' ∧ idx_centers s' = idx_centers s ∧
  eta s' = eta s ∧ merge s' = merge s ∧
  n_feature s' = n_feature s ∧ nn_dist s' = nn_dist s ∧
  length (nn_delta s') = length (nn_delta s) ∧
  length (delta s') = length (delta s) ∧
  length (density_graph s') = length (density_graph s) ∧
  (n_fp = 0 → s' = s).
Proof.
  unfold check_cluster_stability. intros H.
  apply bind_Ret in H as (st & Hfold & H). injection H as <- <- <-.
  apply (foldM_prefix_inv pass_inv) in Hfold.
  - destruct Hfold as (Hc & Hn & Hl1 & Hl2 & Hl3 & Hz). simpl.
    repeat split; try done.
    intros Hfp. destruct (Hz Hfp) as (-> & -> & ->). apply set_graph_id.
  - intros pre idx post x y _. apply stability_step_inv.
  - unfold pass_inv; simpl. by rewrite filter_nil.
Qed.

End Pass.

(** ** What a pass reads *)

Section View.
Variables s s' : FDC.
Hypothesis Hview : same_view s s'.

Lemma visit_nn_ext eta st nn : visit_nn s eta st nn = visit_nn s' eta st nn.
Proof. unfold visit_nn. destruct Hview as (_ & _ & _ & -> & _). done. Qed.

Lemma expand_leaf_ext eta cl cur st leaf :
  expand_leaf s eta cl cur st leaf = expand_leaf s' eta cl cur st leaf.
Proof.
  unfold expand_leaf. destruct Hview as (_ & -> & _ & _ & -> & _).
  destruct (getitem cl leaf); simpl; [done| |done].
  destruct (bool_decide _); [|done].
  destruct (getitem (nn_list s') leaf); simpl; [done| |done].
  apply foldM_ext. intros. apply visit_nn_ext.
Qed.

Lemma tree_search_loop_ext fuel eta cl cur leaves NH :
  tree_search_loop fuel s eta cl cur leaves NH =
  tree_search_loop fuel s' eta cl cur leaves NH.
Proof.
  revert leaves NH. induction fuel as [|fuel IH]; intros leaves NH.
  - by destruct leaves.
  - destruct leaves as [|leaf leaves]; [done|]. cbn [tree_search_loop].
    rewrite (foldM_ext _ (expand_leaf s' eta cl cur))
      by (intros; apply expand_leaf_ext).
    destruct (foldM _ _ _) as [|[NH' new]|]; simpl; auto.
Qed.

Lemma find_NH_tree_search_ext idx eta cl :
  find_NH_tree_search s idx eta cl = find_NH_tree_search s' idx eta cl.
Proof.
  unfold find_NH_tree_search.
  pose proof tree_search_loop_ext as Hloop.
  destruct Hview as (-> & _ & _ & -> & -> & _).
  destruct (getitem (nn_list s') idx); cbn -[tree_search_loop]; [done| |done].
  destruct (getitem cl idx); cbn -[tree_search_loop]; [done| |done].
  by rewrite Hloop.
Qed.

Lemma verdict_ext threshold idx : verdict s threshold idx = verdict s' threshold idx.
Proof.
  unfold verdict, extended_NH, find_idx_max.
  pose proof find_NH_tree_search_ext as Hfind.
  destruct Hview as (_ & -> & _ & -> & -> & -> & ->).
  destruct (getitem (rho s') idx); simpl; [done| |done].
  destruct (Qgtb eta_floor threshold); [done|].
  by rewrite Hfind.
Qed.

End View.

Lemma assign_cluster_deep_fuel (d : nat) (root : list nat) (cl : list Z)
    (G : list (list nat)) (label : Z) :
  assign_cluster_deep d root cl G label ≠ OutOfFuel.
Proof.
  revert root cl. induction d as [|d IH]; intros root cl; simpl; [done|].
  apply foldM_fuel. intros x c.
  apply bind_fuel; [apply setitem_fuel|]. intros cl'.
  apply bind_fuel; [apply getitem_fuel|]. intros kids. apply IH.
Qed.

Lemma assign_cluster_fuel (limit : nat) (centers : list nat) (nn_delta : list Z)
    (G : list (list nat)) :
  assign_cluster limit centers nn_delta G ≠ OutOfFuel.
Proof.
  unfold assign_cluster. apply foldM_fuel. intros x [c label].
  apply bind_fuel; [apply setitem_fuel|]. intros cl'.
  apply bind_fuel; [apply getitem_fuel|]. intros kids.
  apply assign_cluster_deep_fuel.
Qed.

Lemma extended_NH_fuel (s : FDC) (threshold : Q) (idx : nat) :
  extended_NH s threshold idx ≠ OutOfFuel.
Proof.
  unfold extended_NH. apply bind_fuel; [apply getitem_fuel|]. intros r.
  destruct (Qgtb _ _).
  - apply bind_fuel; [apply getitem_fuel|done].
  - apply find_NH_tree_search_fuel.
Qed.

Lemma find_idx_max_fuel (s : FDC) (centers NH : list nat) :
  find_idx_max s centers NH ≠ OutOfFuel.
Proof.
  unfold find_idx_max.
  apply bind_fuel; [apply mapM_fuel; intros; apply getitem_fuel|]. intros labels.
  apply bind_fuel.
  { unfold take_idx_Z. destruct (np_unique labels); [done|].
    apply mapM_fuel. intros. apply getitem_Z_fuel. }
  intros cs. apply bind_fuel; [apply mapM_fuel; intros; apply getitem_fuel|].
  intros dens. apply bind_fuel; [by destruct dens|]. intros k.
  apply bind_fuel; [apply getitem_fuel|]. intros l. apply getitem_Z_fuel.
Qed.

(** ** [FDC.check_cluster_stability_fast] and [FDC.coarse_grain] *)

Section Loop.

Variable norm : list Q → Q.
Variable recursion_limit : nat.

Lemma stability_step_ext (s s' : FDC) (threshold : Q) (st : pass_state) (idx : nat) :
  same_view s s' →
  stability_step norm s threshold st idx = stability_step norm s' threshold st idx.
Proof.
  intros Hview. unfold stability_step, extended_NH, find_idx_max.
  pose proof (find_NH_tree_search_ext s s' Hview) as Hfind.
  destruct Hview as (_ & -> & -> & -> & -> & -> & ->).
  destruct (getitem (rho s') idx); simpl; [done| |done].
  destruct (Qgtb eta_floor threshold); [done|].
  by rewrite Hfind.
Qed.

Lemma check_cluster_stability_set_idx_centers (s : FDC) (c : list nat) (threshold : Q) :
  check_cluster_stability norm (set_idx_centers s c) threshold =
  (check_cluster_stability norm s threshold ≫=
     λ r, Ret (set_idx_centers r.1.1 c, r.1.2, r.2)).
Proof.
  unfold check_cluster_stability.
  rewrite (foldM_ext _ (stability_step norm s threshold)).
  - simpl. by destruct (foldM _ _ _).
  - intros st idx. by apply stability_step_ext.
Qed.

(** The last round of a converged run: the labels it assigned and the
    pass that found nothing to demote. *)
Lemma stability_loop_converged (fuel : nat) (s s1 : FDC) (noise : Q) :
  stability_loop norm recursion_limit fuel s noise = Ret s1 →
  ∃ sk cl,
    assign_cluster recursion_limit (idx_centers_unmerged sk) (nn_delta sk)
                   (density_graph sk) = Ret cl ∧
    check_cluster_stability norm (set_cluster_label sk cl) noise =
      Ret (set_cluster_label sk cl, idx_centers_unmerged sk, 0) ∧
    s1 = set_idx_centers (set_cluster_label sk cl) (idx_centers_unmerged sk) ∧
    eta sk = eta s.
Proof.
  revert s. induction fuel as [|fuel IH]; intros s H; simpl in H; [discriminate|].
  apply bind_Ret in H as (cl & Hcl & H).
  apply bind_Ret in H as ([[s' centers] n_fp] & Hpass & H).
  pose proof (check_cluster_stability_Ret norm _ _ _ _ _ Hpass)
    as (Hc & Hn & _ & _ & Heta & _ & _ & _ & _ & _ & _ & Hz).
  destruct (decide (n_fp = 0)) as [->|Hne].
  - injection H as <-. specialize (Hz eq_refl). subst s'.
    assert (Hall : centers = idx_centers_unmerged s).
    { simpl in Hc, Hn. rewrite Hc. apply filter_length_eq. rewrite <- Hc. lia. }
    clear Hc Hn. subst centers. exists s, cl.
    split; [done|]. split; [done|]. split; [|done].
    by destruct s.
  - apply IH in H as (sk & cl' & H1 & H2 & H3 & H4).
    exists sk, cl'. split; [done|]. split; [done|]. split; [done|].
    rewrite H4. simpl. by rewrite Heta.
Qed.

(** Re-running a converged merger goes through one pass that demotes
    nothing and gives the same object back. *)
Lemma stability_loop_idempotent (fuel fuel' : nat) (s s1 : FDC) (noise : Q) :
  stability_loop norm recursion_limit fuel s noise = Ret s1 →
  check_cluster_stability norm s1 noise = Ret (s1, idx_centers s1, 0) ∧
  stability_loop norm recursion_limit (S fuel') s1 noise = Ret s1.
Proof.
  intros H. apply stability_loop_converged in H as (sk & cl & Hcl & Hpass & -> & _).
  assert (Hp : check_cluster_stability norm
                 (set_idx_centers (set_cluster_label sk cl) (idx_centers_unmerged sk)) noise =
               Ret (set_idx_centers (set_cluster_label sk cl) (idx_centers_unmerged sk),
                    idx_centers_unmerged sk, 0)).
  { rewrite check_cluster_stability_set_idx_centers, Hpass. done. }
  split; [exact Hp|].
  cbn [stability_loop].
  replace (assign_cluster recursion_limit _ _ _) with (Ret (A:=list Z) cl)
    by (rewrite <- Hcl; by destruct sk).
  simpl.
  replace (set_cluster_label (set_idx_centers (set_cluster_label sk cl) (idx_centers_unmerged sk)) cl)
    with (set_idx_centers (set_cluster_label sk cl) (idx_centers_unmerged sk))
    by (by destruct sk).
  rewrite Hp. simpl. by destruct sk.
Qed.

Lemma stability_loop_sublist (fuel : nat) (s s1 : FDC) (noise : Q) :
  stability_loop norm recursion_limit fuel s noise = Ret s1 →
  idx_centers s1 `sublist_of` idx_centers_unmerged s ∧
  idx_centers_unmerged s1 = idx_centers s1.
Proof.
  revert s. induction fuel as [|fuel IH]; intros s H; simpl in H; [discriminate|].
  apply bind_Ret in H as (cl & Hcl & H).
  apply bind_Ret in H as ([[s' centers] n_fp] & Hpass & H).
  pose proof (check_cluster_stability_Ret norm _ _ _ _ _ Hpass) as (Hc & _).
  assert (Hsub : centers `sublist_of` idx_centers_unmerged s).
  { rewrite Hc. apply sublist_filter. }
  destruct (decide (n_fp = 0)) as [->|Hne].
  - injection H as <-. done.
  - apply IH in H as [H1 H2]. split; [|done].
    etrans; [exact H1|]. done.
Qed.

Lemma check_cluster_stability_fuel (s : FDC) (threshold : Q) :
  check_cluster_stability norm s threshold ≠ OutOfFuel.
Proof.
  unfold check_cluster_stability. apply bind_fuel; [|done].
  apply foldM_fuel. intros st idx. unfold stability_step.
  apply bind_fuel; [apply extended_NH_fuel|]. intros NH.
  apply bind_fuel; [apply find_idx_max_fuel|]. intros m.
  apply bind_fuel; [apply getitem_fuel|]. intros ri.
  apply bind_fuel; [apply getitem_fuel|]. intros rm.
  destruct (demote_test _ _ _ _); [|done].
  apply bind_fuel; [apply setitem_fuel|]. intros nnd.
  apply bind_fuel; [apply getitem_fuel|]. intros xm.
  apply bind_fuel; [apply getitem_fuel|]. intros xi.
  apply bind_fuel; [apply setitem_fuel|]. intros dl.
  apply bind_fuel; [apply getitem_fuel|]. done.
Qed.

(** The convergence loop stops by itself: a round that goes on has one
    candidate fewer. *)
Lemma stability_loop_fuel (fuel : nat) (s : FDC) (noise : Q) :
  length (idx_centers_unmerged s) < fuel →
  stability_loop norm recursion_limit fuel s noise ≠ OutOfFuel.
Proof.
  revert s. induction fuel as [|fuel IH]; intros s Hfuel; [lia|].
  cbn [stability_loop].
  apply bind_fuel; [apply assign_cluster_fuel|]. intros cl.
  destruct (check_cluster_stability norm (set_cluster_label s cl) noise)
    as [e|[[s' centers] n_fp]|] eqn:Hpass; simpl.
  - done.
  - destruct (decide (n_fp = 0)); [done|]. apply IH. simpl.
    apply check_cluster_stability_Ret in Hpass as (_ & Hn & _). simpl in Hn. lia.
  - by apply check_cluster_stability_fuel in Hpass.
Qed.

Lemma check_cluster_stability_fast_fuel (s : FDC) (eta_arg : option Q) :
  check_cluster_stability_fast norm recursion_limit s eta_arg ≠ OutOfFuel.
Proof. unfold check_cluster_stability_fast. apply stability_loop_fuel. lia. Qed.

Lemma coarse_step_inv (st st' : coarse) (nt : Q) :
  coarse_inv st → coarse_step norm recursion_limit st nt = Ret st' → coarse_inv st'.
Proof.
  intros [Hdesc Hlast] H. unfold coarse_step in H.
  apply bind_Ret in H as (s & Hs & H).
  apply stability_loop_sublist in Hs as [Hsub Hun].
  assert (Hh : hierarchy st' = hierarchy st ++ [mkLevel (idx_centers s) (cluster_label s)]
               ∧ c_fdc st' = s).
  { destruct (decide _); by injection H as <-. }
  destruct Hh as [Hh Hc]. split.
  - rewrite Hh. intros i l1 l2 H1 H2.
    destruct (decide (S i < length (hierarchy st))) as [Hlt|Hge].
    + rewrite lookup_app_l in H1 by lia. rewrite lookup_app_l in H2 by lia.
      by eapply Hdesc.
    + assert (Hi : S i = length (hierarchy st)).
      { apply lookup_lt_Some in H2. rewrite length_app in H2. simpl in H2. lia. }
      rewrite lookup_app_l in H1 by lia.
      rewrite lookup_app_r in H2 by lia.
      replace (S i - length (hierarchy st)) with 0 in H2 by lia.
      injection H2 as <-. simpl.
      rewrite <- (Hlast l1); [done|].
      rewrite last_lookup. by rewrite <- Hi.
  - intros l. rewrite Hh, last_snoc, Hc. by intros [= <-].
Qed.

Lemma coarse_grain_descending (s : FDC) (noise_range : list Q) (st : coarse) (nt : Q) :
  coarse_grain norm recursion_limit s noise_range = Ret (st, nt) →
  descending (hierarchy st).
Proof.
  unfold coarse_grain. intros H. apply bind_Ret in H as (st0 & Hfold & H).
  apply bind_Ret in H as (nt0 & _ & H). injection H as <- <-.
  apply (foldM_inv coarse_inv) in Hfold; [by destruct Hfold| |].
  - intros x b y _. apply coarse_step_inv.
  - split; simpl; [|done]. intros i l1 l2. by rewrite lookup_nil.
Qed.

End Loop.

(** * The claims *)

(** ** Gradient Graph Builder *)

(** C10: [index_greater] never returns index 0, so the truthiness guard
    [if idx:] of [compute_delta] decides as [if idx is not None:] would,
    and it takes the parent branch whenever some entry of the scanned
    array exceeds the first one by more than the tolerance. *)
Theorem index_greater_guard (array : list Q) (idx : option nat) :
  index_greater array = Ret idx →
  idx ≠ Some 0 ∧ truthy idx = is_not_None idx ∧
  ∀ item k v, array !! 0 = Some item → array !! k = Some v →
              (item + prec < v)%Q → truthy idx = true.
Proof.
  intros H. pose proof (index_greater_not_0 _ _ H) as Hnot0.
  split; [done|]. split; [by destruct idx as [[|k]|]|].
  intros item k v Hitem Hv Hgt.
  unfold index_greater in H. apply bind_Ret in H as (item' & Hitem' & H).
  apply getitem_Ret in Hitem'. injection H as H.
  assert (item' = item) by congruence. subst item'.
  destruct idx as [[|j]|]; [done|done|].
  exfalso. apply (Qlt_not_le _ _ Hgt). by eapply first_greater_None.
Qed.

Lemma index_greater_guard_witness :
  index_greater [1%Q; 0%Q; 5%Q] = Ret (Some 2) ∧
  Some 2 ≠ Some 0 ∧ truthy (Some 2) = is_not_None (Some 2) ∧
  ∀ item k v, [1%Q; 0%Q; 5%Q] !! 0 = Some item → [1%Q; 0%Q; 5%Q] !! k = Some v →
              (item + prec < v)%Q → truthy (Some 2) = true.
Proof.
  split; [reflexivity|].
  apply (index_greater_guard [1%Q; 0%Q; 5%Q] (Some 2)). reflexivity.
Defined.

Lemma line4_wf (e : Q) : wf_input (line4 e).
Proof.
  split; simpl; try done; try lia.
  - repeat constructor.
  - intros [|[|[|[|i]]]] row; simpl; intros [= <-]; done.
  - intros [|[|[|[|i]]]] row; simpl; intros [= <-]; repeat constructor; lia.
  - intros [|[|[|[|i]]]] row drow; simpl; intros [= <-] [= <-]; done.
Qed.

Section GradientClaims.
Variable norm : list Q → Q.


Lemma parent_spec_increasing (s : FDC) (maxdist : Q) (i : nat) (nnd : list Z) (dl : list Q)
    (p : Z) :
  parent_spec s maxdist i nnd dl → nnd !! i = Some p → (0 ≤ p)%Z →
  ∃ ri rp, rho s !! i = Some ri ∧ rho s !! Z.to_nat p = Some rp ∧ (ri < rp)%Q.
Proof.
  intros (row & ri & _ & Hri & [Hpar|Hnone]) Hp Hp0.
  - destruct Hpar as (k & m & rm & drow & d & _ & _ & Hrm & Hgt & _ & Hnn & _).
    assert (p = Z.of_nat m) by congruence. subst p. rewrite Nat2Z.id.
    exists ri, rm. split; [done|]. split; [done|].
    eapply Qle_lt_trans; [|exact Hgt].
    rewrite <- (Qplus_0_r ri) at 1. apply Qplus_le_r. unfold prec. discriminate.
  - destruct Hnone as (_ & Hnn & _). assert (p = (-1)%Z) by congruence. lia.
Qed.

Lemma compute_delta_increasing (s s' : FDC) :
  (∀ i row, nn_list s !! i = Some row → row !! 0 = Some i) →
  compute_delta norm s = Ret s' →
  parent_increasing (rho s') (nn_delta s').
Proof.
  intros Hself H.
  destruct (compute_delta_graph norm s s' Hself H)
    as (maxdist & _ & _ & Hlen & _ & Hspec & _ & Hrho & _).
  intros i p Hp Hp0. rewrite Hrho.
  eapply parent_spec_increasing; [|exact Hp|exact Hp0].
  apply Hspec. apply lookup_lt_Some in Hp. lia.
Qed.

Lemma stability_step_increasing (s : FDC) (threshold : Q) (st st' : pass_state) (idx : nat) :
  parent_increasing (rho s) (p_nn_delta st) →
  stability_step norm s threshold st idx = Ret st' →
  parent_increasing (rho s) (p_nn_delta st').
Proof.
  intros Hinc H.
  apply stability_step_Ret in H as (m & ri & rm & _ & Hri & Hrm & Hcase).
  destruct Hcase as [(Ht & Hlt & _ & x_max & x_idx & kids & _ & _ & _ & ->)
                    |(_ & ->)]; simpl; [|done].
  apply demote_test_true in Ht as [Hgt _].
  intros i p Hp Hp0. destruct (decide (i = idx)) as [->|Hne].
  - rewrite list_lookup_insert_eq in Hp by done. injection Hp as <-.
    rewrite Nat2Z.id. by exists ri, rm.
  - rewrite list_lookup_insert_ne in Hp by done. by apply Hinc.
Qed.

Lemma check_cluster_stability_increasing (s s' : FDC) (threshold : Q)
    (centers : list nat) (n_fp : nat) :
  parent_increasing (rho s) (nn_delta s) →
  check_cluster_stability norm s threshold = Ret (s', centers, n_fp) →
  parent_increasing (rho s') (nn_delta s').
Proof.
  intros Hinc H. unfold check_cluster_stability in H.
  apply bind_Ret in H as (st & Hfold & H). injection H as <- <- <-. simpl.
  apply (foldM_inv (λ st, parent_increasing (rho s) (p_nn_delta st))) in Hfold; [done| |done].
  intros x idx y _. apply stability_step_increasing.
Qed.

(** C5: on well-formed input the Gradient Graph Builder leaves
    [rho[parent[i]] > rho[i]] at every point [i] that has a parent, and a
    Stability Merger pass that starts from arrays with this property hands
    them back with it. *)
Theorem parent_density_increasing (s : FDC) :
  wf_input s →
  ∃ s0, compute_delta norm s = Ret s0 ∧
    parent_increasing (rho s0) (nn_delta s0) ∧
    ∀ t threshold t' centers n_fp,
      parent_increasing (rho t) (nn_delta t) →
      check_cluster_stability norm t threshold = Ret (t', centers, n_fp) →
      parent_increasing (rho t') (nn_delta t').
Proof.
  intros Hwf. destruct (compute_delta_returns norm s Hwf) as [s0 Hs0].
  exists s0. split; [done|]. split.
  - eapply compute_delta_increasing; [exact (wf_self s Hwf)|exact Hs0].
  - intros t threshold t' centers n_fp. apply check_cluster_stability_increasing.
Qed.

End GradientClaims.


Lemma parent_density_increasing_witness :
  wf_input (line4 0) ∧
  ∃ s0, compute_delta abs_norm (line4 0) = Ret s0 ∧
    parent_increasing (rho s0) (nn_delta s0) ∧
    ∀ t threshold t' centers n_fp,
      parent_increasing (rho t) (nn_delta t) →
      check_cluster_stability abs_norm t threshold = Ret (t', centers, n_fp) →
      parent_increasing (rho t') (nn_delta t').
Proof.
  split; [apply line4_wf|]. apply (parent_density_increasing abs_norm (line4 0)), line4_wf.
Defined.

(** C7 at [pair2]: point 0 has the denser point 1 as parent, at a
    distance equal to the sentinel, and is a candidate center all the
    same. *)
Theorem compute_delta_center_with_parent :
  ∃ s', compute_delta abs_norm pair2 = Ret s' ∧
        compute_maxdist abs_norm pair2 = Ret 1%Q ∧
        nn_delta s' !! 0 = Some 1%Z ∧ delta s' !! 0 = Some 1%Q ∧
        0 ∈ idx_centers_unmerged s'.
Proof.
  eexists. split; [vm_compute; reflexivity|]. split; [reflexivity|].
  split; [reflexivity|]. split; [reflexivity|]. simpl. by left.
Qed.

(** ** Label Propagator *)

Section LabelClaims.
Variable recursion_limit : nat.


End LabelClaims.

Lemma line4_forest :
  forest (density_graph (line4_graph 0)) (idx_centers_unmerged (line4_graph 0))
         (length (nn_delta (line4_graph 0))) line4_height 1000.
Proof.
  split; simpl.
  - done.
  - apply (bool_decide_unpack _). by vm_compute.
  - intros [|[|[|[|p]]]] Hp; try lia; set_solver.
  - intros p Hp. set_unfold. lia.
  - intros q x (kids & Hk & Hx).
    destruct q as [|[|[|[|q]]]]; simpl in Hk; try discriminate;
      injection Hk as <-; set_unfold; try done; destruct Hx as [->|[]]; simpl; lia.
  - intros [|[|[|[|p]]]] Hp; simpl; lia.
Qed.


(** ** Stability Merger *)


Lemma line4_graph_wf (e : Q) : wf_input (line4_graph e).
Proof.
  split; simpl; try done; try lia.
  - repeat constructor.
  - intros [|[|[|[|i]]]] row; simpl; intros [= <-]; done.
  - intros [|[|[|[|i]]]] row; simpl; intros [= <-]; repeat constructor; lia.
  - intros [|[|[|[|i]]]] row drow; simpl; intros [= <-] [= <-]; done.
Qed.


Section MergerClaims.
Variable norm : list Q → Q.


End MergerClaims.

Lemma line4_recognized (NH : list nat) : recognized (line4_graph 0) NH.
Proof.
  intros ni l _. destruct ni as [|[|[|[|ni]]]]; simpl; intros [= <-]; lia.
Qed.


Lemma np_unique_all_unlabeled (labels : list Z) :
  labels ≠ [] → Forall (λ l, l = (-1)%Z) labels → np_unique labels = [(-1)%Z].
Proof.
  intros Hne Hall. unfold np_unique.
  assert (Hd : remove_dups labels = [(-1)%Z]).
  { induction labels as [|l labels IH]; [done|].
    apply Forall_cons in Hall as [-> Hall]. simpl.
    destruct labels as [|l' labels]; [done|].
    destruct (decide_rel _ _ _) as [Hin|Hout].
    - by apply IH.
    - exfalso. apply Hout. apply Forall_cons in Hall as [-> _]. by left. }
  by rewrite Hd.
Qed.

Section NoLabelClaims.
Variable norm : list Q → Q.
Variable recursion_limit : nat.

(** C9, as amended: the code has no error of its own for an extended
    neighbourhood without a center label.  When [NH] is empty the pass
    stops with numpy's [IndexError]; when [NH] is not empty and all its
    points are unlabeled, nothing is raised: the label [-1] indexes the
    last candidate center, which becomes [idx_max]. *)
Theorem unlabeled_neighbourhood (s : FDC) (threshold : Q) (st : pass_state)
    (idx : nat) (NH : list nat) :
  extended_NH s threshold idx = Ret NH →
  (∀ ni, ni ∈ NH → cluster_label s !! ni = Some (-1)%Z) →
  (NH = [] → stability_step norm s threshold st idx = Raise IndexError) ∧
  (NH ≠ [] → ∀ c r, last (idx_centers_unmerged s) = Some c → rho s !! c = Some r →
             find_idx_max s (idx_centers_unmerged s) NH = Ret c).
Proof.
  intros HNH Hlab. split.
  - intros ->. unfold stability_step. rewrite HNH. reflexivity.
  - intros Hne c r Hlast Hr. unfold find_idx_max.
    assert (Hlabels : mapM (getitem (cluster_label s)) NH =
                      Ret (replicate (length NH) (-1)%Z)).
    { apply mapM_Ret. clear HNH Hne. induction NH as [|ni NH IH]; simpl; [constructor|].
      constructor.
      - apply getitem_Ret, Hlab. by left.
      - apply IH. intros ni' Hni'. apply Hlab. by right. }
    rewrite Hlabels; simpl.
    rewrite np_unique_all_unlabeled;
      [|by destruct NH|by apply Forall_replicate].
    assert (Hc : getitem_Z (idx_centers_unmerged s) (-1) = Ret c).
    { unfold getitem_Z. rewrite last_lookup in Hlast.
      destruct (idx_centers_unmerged s) as [|c0 cs] eqn:Hcs; [done|].
      simpl length in *. simpl pred in Hlast.
      rewrite decide_False by lia. rewrite decide_True by lia.
      apply getitem_Ret. rewrite <- Hlast. f_equal. lia. }
    simpl. rewrite Hc; simpl.
    rewrite (proj2 (getitem_Ret _ _ _) Hr); simpl. exact Hc.
Qed.

End NoLabelClaims.

(** C9 fails at [unlabeled2]: the only point of the extended
    neighbourhood of candidate 0 is unlabeled, and the pass returns. *)
Lemma unlabeled_neighbourhood_passes :
  extended_NH unlabeled2 0 0 = Ret [1] ∧
  cluster_label unlabeled2 !! 1 = Some (-1)%Z ∧
  ¬ recognized unlabeled2 [1] ∧
  check_cluster_stability abs_norm unlabeled2 0 = Ret (unlabeled2, [0], 0).
Proof.
  split; [reflexivity|]. split; [reflexivity|]. split; [|vm_compute; reflexivity].
  intros Hrec. destruct (Hrec 1 (-1)%Z); [by left|reflexivity|lia].
Qed.

Lemma unlabeled_neighbourhood_witness :
  extended_NH unlabeled2 0 0 = Ret [1] ∧
  (∀ ni, ni ∈ [1] → cluster_label unlabeled2 !! ni = Some (-1)%Z) ∧
  ([1] = [] → stability_step abs_norm unlabeled2 0
                (mkPass (nn_delta unlabeled2) (delta unlabeled2) (density_graph unlabeled2) 0 [])
                0 = Raise IndexError) ∧
  ([1] ≠ [] → ∀ c r, last (idx_centers_unmerged unlabeled2) = Some c →
              rho unlabeled2 !! c = Some r →
              find_idx_max unlabeled2 (idx_centers_unmerged unlabeled2) [1] = Ret c).
Proof.
  assert (Hlab : ∀ ni, ni ∈ [1] → cluster_label unlabeled2 !! ni = Some (-1)%Z).
  { intros ni Hni. apply list_elem_of_singleton in Hni as ->. reflexivity. }
  split; [reflexivity|]. split; [exact Hlab|].
  apply (unlabeled_neighbourhood abs_norm unlabeled2 0 _ 0 [1]); [reflexivity|exact Hlab].
Defined.

(** ** Convergence and the coarse-grain sweep *)

Section ConvergenceClaims.
Variable norm : list Q → Q.
Variable recursion_limit : nat.

Lemma stability_loop_eta (fuel : nat) (s s1 : FDC) (noise : Q) :
  stability_loop norm recursion_limit fuel s noise = Ret s1 → eta s1 = eta s.
Proof.
  intros H. apply stability_loop_converged in H as (sk & cl & _ & _ & -> & Heta).
  by rewrite <- Heta.
Qed.

(** C8: once the Stability Merger has converged at a threshold, a pass
    at that threshold over the object it returned demotes nothing, and
    running the merger again at that threshold returns the same object:
    the same accepted centers, the same labels, the same graph. *)
Theorem check_cluster_stability_fast_idempotent (s s1 : FDC) (eta_arg : option Q) :
  check_cluster_stability_fast norm recursion_limit s eta_arg = Ret s1 →
  check_cluster_stability norm s1 (default (eta s1) eta_arg) =
    Ret (s1, idx_centers s1, 0) ∧
  check_cluster_stability_fast norm recursion_limit s1 eta_arg = Ret s1.
Proof.
  unfold check_cluster_stability_fast. intros H.
  rewrite (stability_loop_eta _ _ _ _ H).
  exact (stability_loop_idempotent norm recursion_limit _
           (length (idx_centers_unmerged s1)) s s1 _ H).
Qed.

(** C4, as amended: the centers a pass returns are a subsequence of the
    candidates it started from, so are the centers the merger converges
    to, and in a coarse-grain sweep, where every threshold starts from
    the centers the previous one left, the centers of each level are a
    subsequence of those of the level before and their number does not
    increase.  Two runs from the same candidates at different thresholds
    are not compared. *)
Theorem merging_only_removes_centers (s : FDC) (noise_range : list Q)
    (st : coarse) (nt : Q) :
  coarse_grain norm recursion_limit s noise_range = Ret (st, nt) →
  (∀ i l1 l2, hierarchy st !! i = Some l1 → hierarchy st !! S i = Some l2 →
     l_idx_centers l2 `sublist_of` l_idx_centers l1 ∧
     length (l_idx_centers l2) ≤ length (l_idx_centers l1)) ∧
  (∀ t threshold t' centers n_fp,
     check_cluster_stability norm t threshold = Ret (t', centers, n_fp) →
     centers `sublist_of` idx_centers_unmerged t) ∧
  (∀ t eta_arg t',
     check_cluster_stability_fast norm recursion_limit t eta_arg = Ret t' →
     idx_centers t' `sublist_of` idx_centers_unmerged t ∧
     length (idx_centers t') ≤ length (idx_centers_unmerged t)).
Proof.
  intros H. split; [|split].
  - intros i l1 l2 H1 H2.
    pose proof (coarse_grain_descending norm recursion_limit _ _ _ _ H i l1 l2 H1 H2) as Hsub.
    split; [done|]. by apply sublist_length.
  - intros t threshold t' centers n_fp Hpass.
    apply check_cluster_stability_Ret in Hpass as (-> & _). apply sublist_filter.
  - intros t eta_arg t' Hfast. unfold check_cluster_stability_fast in Hfast.
    apply stability_loop_sublist in Hfast as [Hsub _].
    split; [done|]. by apply sublist_length.
Qed.

End ConvergenceClaims.

Lemma check_cluster_stability_fast_idempotent_witness :
  ∃ s1, check_cluster_stability_fast abs_norm 1000 (line4_graph 0) (Some 0%Q) = Ret s1 ∧
    idx_centers s1 = [3] ∧
    check_cluster_stability abs_norm s1 (default (eta s1) (Some 0%Q)) =
      Ret (s1, idx_centers s1, 0) ∧
    check_cluster_stability_fast abs_norm 1000 s1 (Some 0%Q) = Ret s1.
Proof.
  eexists. split; [vm_compute; reflexivity|]. split; [reflexivity|].
  apply (check_cluster_stability_fast_idempotent abs_norm 1000 (line4_graph 0)).
  vm_compute. reflexivity.
Defined.

(** C4 fails at [line4_graph]: from the same two candidates the merger
    converges to one center at threshold 0 and keeps both at threshold
    1. *)
Lemma merging_not_monotone_in_eta :
  ∃ s1 s2,
    check_cluster_stability_fast abs_norm 1000 (line4_graph 0) (Some 0%Q) = Ret s1 ∧
    check_cluster_stability_fast abs_norm 1000 (line4_graph 0) (Some 1%Q) = Ret s2 ∧
    (0 < 1)%Q ∧
    idx_centers s1 = [3] ∧ idx_centers s2 = [0; 3] ∧
    ¬ length (idx_centers s2) ≤ length (idx_centers s1).
Proof.
  eexists. eexists.
  split; [vm_compute; reflexivity|]. split; [vm_compute; reflexivity|].
  split; [reflexivity|]. split; [reflexivity|]. split; [reflexivity|].
  simpl. lia.
Qed.

Lemma merging_only_removes_centers_witness :
  ∃ st nt,
    coarse_grain abs_norm 1000 (line4_graph 0) [1%Q; 0%Q] = Ret (st, nt) ∧
    l_idx_centers <$> hierarchy st = [[0; 3]; [3]] ∧
    (∀ i l1 l2, hierarchy st !! i = Some l1 → hierarchy st !! S i = Some l2 →
       l_idx_centers l2 `sublist_of` l_idx_centers l1 ∧
       length (l_idx_centers l2) ≤ length (l_idx_centers l1)) ∧
    (∀ t threshold t' centers n_fp,
       check_cluster_stability abs_norm t threshold = Ret (t', centers, n_fp) →
       centers `sublist_of` idx_centers_unmerged t) ∧
    (∀ t eta_arg t',
       check_cluster_stability_fast abs_norm 1000 t eta_arg = Ret t' →
       idx_centers t' `sublist_of` idx_centers_unmerged t ∧
       length (idx_centers t') ≤ length (idx_centers_unmerged t)).
Proof.
  eexists. eexists. split; [vm_compute; reflexivity|]. split; [reflexivity|].
  eapply (merging_only_removes_centers abs_norm 1000 (line4_graph 0) [1%Q; 0%Q]).
  vm_compute. reflexivity.
Defined.

(** * Further properties of the code *)

(** ** [index_greater] and the candidates of [compute_delta] *)



Lemma elem_of_mask_select (n : nat) (mask : list bool) (i : nat) :
  i ∈ mask_select (seq 0 n) mask ↔ i < n ∧ mask !! i = Some true.
Proof.
  unfold mask_select. rewrite list_elem_of_fmap. split.
  - intros ([i' b] & -> & Hin). apply list_elem_of_filter in Hin as [Hb Hin].
    simpl in *. subst b. apply list_elem_of_lookup in Hin as [k Hk].
    apply lookup_zip_with_Some in Hk as (x & y & [= <- <-] & Hx & Hy).
    apply lookup_seq in Hx as [-> Hlt]. done.
  - intros [Hlt Hm]. exists (i, true). split; [done|].
    apply list_elem_of_filter. split; [done|].
    apply list_elem_of_lookup. exists i. apply lookup_zip_with_Some.
    exists i, true. split; [done|]. split; [|done]. by apply lookup_seq.
Qed.

Lemma fst_zip_sublist {A B} (l : list A) (k : list B) : (zip l k).*1 `sublist_of` l.
Proof.
  revert k. induction l as [|x l IH]; intros [|b k]; simpl;
    try constructor; auto. apply sublist_nil_l.
Qed.

Lemma mask_select_NoDup (n : nat) (mask : list bool) :
  NoDup (mask_select (seq 0 n) mask).
Proof.
  unfold mask_select.
  apply (sublist_NoDup _ (seq 0 n)); [apply NoDup_seq|].
  etrans; [|apply (fst_zip_sublist (seq 0 n) mask)]. apply fmap_sublist, sublist_filter.
Qed.

Section CandidateRule.
Variable norm : list Q → Q.


End CandidateRule.


Lemma delta_step_graph (s : FDC) (dg dg' : list (list nat)) (nnd nnd' : list Z)
    (dl dl' : list Q) (i : nat) :
  delta_step s (dg, nnd, dl) i = Ret (dg', nnd', dl') →
  i < length nnd ∧
  ((∃ m kids, dg !! m = Some kids ∧ dg' = <[m := kids ++ [i]]> dg ∧
              nnd' = <[i := Z.of_nat m]> nnd)
   ∨ (dg' = dg ∧ nnd' = <[i := (-1)%Z]> nnd)).
Proof.
  unfold delta_step. intros H.
  apply bind_Ret in H as (row & _ & H).
  apply bind_Ret in H as (dens & _ & H).
  apply bind_Ret in H as (idx & _ & H).
  destruct (truthy idx).
  - inv_ret. subst. split; [done|]. left. by exists a, a0.
  - inv_ret. subst. split; [done|]. by right.
Qed.

Section Children.
Variable norm : list Q → Q.

(** X3: after [compute_delta] on well-formed input [density_graph] is
    the reverse of [nn_delta]: point [i] is listed among the children of
    [m] exactly when [nn_delta[i] = m], and it is listed once. *)
Theorem compute_delta_children (s : FDC) :
  wf_input s →
  ∃ s', compute_delta norm s = Ret s' ∧
    length (density_graph s') = length (X s) ∧
    ∀ m kids, density_graph s' !! m = Some kids →
      NoDup kids ∧ ∀ i, i ∈ kids ↔ nn_delta s' !! i = Some (Z.of_nat m).
Proof.
  intros Hwf. destruct (compute_delta_returns norm s Hwf) as [s' Hs'].
  exists s'. split; [done|].
  unfold compute_delta in Hs'.
  apply bind_Ret in Hs' as (maxdist & _ & H).
  apply bind_Ret in H as ([[dg nnd] dl] & Hfold & H). injection H as <-. simpl.
  set (n := length (X s)) in *.
  apply (foldM_seq_inv
    (λ k (st : list (list nat) * list Z * list Q),
       length st.1.1 = n ∧ length st.1.2 = n ∧
       ∀ m kids, st.1.1 !! m = Some kids →
         NoDup kids ∧ ∀ i, i ∈ kids ↔ i < k ∧ st.1.2 !! i = Some (Z.of_nat m)))
    in Hfold.
  - destruct Hfold as (Hdg & Hnnd & Hkids). simpl in *. split; [done|].
    intros m kids Hm. destruct (Hkids m kids Hm) as [Hnd Hiff]. split; [done|].
    intros i. rewrite Hiff. split; [by intros [_ ?]|].
    intros Hi. split; [|done]. rewrite <- Hnnd. by eapply lookup_lt_Some.
  - intros k [[dg0 nnd0] dl0] [[dg1 nnd1] dl1] Hk (Hl1 & Hl2 & Hkids) Hstep.
    simpl in *.
    apply delta_step_graph in Hstep
      as [Hlt [(m & kids & Hm & -> & ->)|[-> ->]]]; simpl;
      rewrite ?length_insert; (split; [done|]); (split; [done|]).
    + intros m' kids' Hm'. destruct (decide (m' = m)) as [->|Hne].
      * rewrite list_lookup_insert_eq in Hm' by (by eapply lookup_lt_Some).
        injection Hm' as <-. destruct (Hkids m kids Hm) as [Hnd Hiff].
        split.
        -- apply NoDup_app. split; [done|]. split; [|apply NoDup_singleton].
           intros x Hx Hx'. apply list_elem_of_singleton in Hx' as ->.
           apply Hiff in Hx as [Hx _]. lia.
        -- intros i. rewrite elem_of_app, list_elem_of_singleton, Hiff.
           destruct (decide (i = k)) as [->|Hik].
           ++ rewrite list_lookup_insert_eq by done. split; [|by right].
              intros _. split; [lia|done].
           ++ rewrite list_lookup_insert_ne by done. split.
              ** intros [[? ?]|?]; [|done]. split; [lia|done].
              ** intros [? ?]. left. split; [lia|done].
      * rewrite list_lookup_insert_ne in Hm' by done.
        destruct (Hkids m' kids' Hm') as [Hnd Hiff]. split; [done|].
        intros i. rewrite Hiff. destruct (decide (i = k)) as [->|Hik].
        -- rewrite list_lookup_insert_eq by done. split; [lia|].
           intros [_ [= Heq]]. apply Nat2Z.inj in Heq. congruence.
        -- rewrite list_lookup_insert_ne by done. split; intros [? ?]; split; [lia|done|lia|done].
    + intros m' kids' Hm'. destruct (Hkids m' kids' Hm') as [Hnd Hiff].
      split; [done|]. intros i. rewrite Hiff.
      destruct (decide (i = k)) as [->|Hik].
      * rewrite list_lookup_insert_eq by done. split; [lia|]. intros [_ [= Heq]]. lia.
      * rewrite list_lookup_insert_ne by done. split; intros [? ?]; split; [lia|done|lia|done].
  - simpl. rewrite !length_replicate. split; [done|]. split; [done|].
    intros m kids Hm. apply lookup_replicate in Hm as [-> _].
    split; [constructor|]. intros i. split; [by intros ?%elem_of_nil|lia].
Qed.

End Children.

Lemma compute_delta_children_witness :
  wf_input (line4 0) ∧
  ∃ s', compute_delta abs_norm (line4 0) = Ret s' ∧
    length (density_graph s') = length (X (line4 0)) ∧
    ∀ m kids, density_graph s' !! m = Some kids →
      NoDup kids ∧ ∀ i, i ∈ kids ↔ nn_delta s' !! i = Some (Z.of_nat m).
Proof.
  split; [apply line4_wf|].
  apply (compute_delta_children abs_norm (line4 0)), line4_wf.
Defined.

(** ** [assign_cluster] on any graph *)

Lemma zip_seq_prefix {A} (l : list A) (pre post : list (A * nat)) (c : A) (j : nat) :
  zip l (seq 0 (length l)) = pre ++ (c, j) :: post →
  j = length pre ∧ l !! j = Some c ∧
  ∀ c0 j0, (c0, j0) ∈ pre → j0 < length pre ∧ l !! j0 = Some c0.
Proof.
  intros Hl.
  assert (Hj : zip l (seq 0 (length l)) !! length pre = Some (c, j)).
  { rewrite Hl. by apply list_lookup_middle. }
  apply zip_seq_lookup in Hj as [Hj Hc]. split; [done|]. split; [done|].
  intros c0 j0 Hin. apply list_elem_of_lookup in Hin as [k Hk].
  assert (Hk' : zip l (seq 0 (length l)) !! k = Some (c0, j0)).
  { rewrite Hl. by apply lookup_app_l_Some. }
  apply zip_seq_lookup in Hk' as [-> Hc0]. split; [|done].
  by eapply lookup_lt_Some.
Qed.

Section LabelSoundness.
Variable recursion_limit : nat.

(** X4: on any density graph, when [assign_cluster] returns, it returns
    one label per point; a label other than -1 on a point is the index of
    a center whose basin holds the point, and a point in the basin of the
    center of index [j] carries the index of a center [j' ≥ j] whose basin
    holds it (a later center overwrites the labels of an earlier one). *)
Theorem assign_cluster_sound (centers : list nat) (nn_delta : list Z)
    (G : list (list nat)) (cl : list Z) :
  assign_cluster recursion_limit centers nn_delta G = Ret cl →
  length cl = length nn_delta ∧
  (∀ p l, cl !! p = Some l →
     l = (-1)%Z ∨ ∃ j c, l = Z.of_nat j ∧ centers !! j = Some c ∧ basin G c p) ∧
  (∀ j c p, centers !! j = Some c → basin G c p →
     ∃ j' c', j ≤ j' ∧ centers !! j' = Some c' ∧ basin G c' p ∧
              cl !! p = Some (Z.of_nat j')).
Proof.
  unfold assign_cluster. intros H.
  apply (foldM_prefix_inv
    (λ pre cl, length cl = length nn_delta ∧
       (∀ p l, cl !! p = Some l →
          l = (-1)%Z ∨ ∃ j c, l = Z.of_nat j ∧ (c, j) ∈ pre ∧ basin G c p) ∧
       (∀ j c p, (c, j) ∈ pre → basin G c p →
          ∃ j' c', j ≤ j' ∧ (c', j') ∈ pre ∧ basin G c' p ∧
                   cl !! p = Some (Z.of_nat j')))) in H.
  - destruct H as (Hlen & Hsound & Hcover). split; [done|]. split.
    + intros p l Hp. destruct (Hsound p l Hp) as [->|(j & c & -> & Hin & Hb)]; [by left|].
      right. exists j, c. split; [done|]. split; [|done].
      apply list_elem_of_lookup in Hin as [k Hk]. by apply zip_seq_lookup in Hk as [-> ?].
    + intros j c p Hj Hb.
      destruct (Hcover j c p) as (j' & c' & Hle & Hin & Hb' & Hp); [|done|].
      { apply list_elem_of_lookup. exists j. by apply zip_seq_lookup. }
      exists j', c'. split; [done|]. split; [|done].
      apply list_elem_of_lookup in Hin as [k Hk]. by apply zip_seq_lookup in Hk as [-> ?].
  - intros pre [c j] post x y Hl (Hlen & Hsound & Hcover) Hstep.
    apply zip_seq_prefix in Hl as (Hj & Hc & Hpre).
    apply bind_Ret in Hstep as (cl1 & Hset & Hstep).
    apply bind_Ret in Hstep as (kids & Hkids & Hdeep).
    apply setitem_Ret in Hset as [Hlt ->]. apply getitem_Ret in Hkids.
    apply assign_cluster_deep_stamped in Hdeep.
    pose proof Hdeep as (Hl' & Hch & Hst).
    assert (Hcc : y !! c = Some (Z.of_nat j)).
    { eapply stamped_keeps; [exact Hdeep|]. by apply list_lookup_insert_eq. }
    split; [by rewrite Hl', length_insert|]. split.
    + intros p l Hp. destruct (Hch p) as [Heq|[Hbel Hlab]].
      * destruct (decide (p = c)) as [->|Hne].
        -- right. exists j, c. split; [congruence|]. split; [|apply rtc_refl].
           apply elem_of_app. right. by left.
        -- rewrite Heq, list_lookup_insert_ne in Hp by done.
           destruct (Hsound p l Hp) as [->|(j0 & c0 & -> & Hin & Hb)]; [by left|].
           right. exists j0, c0. split; [done|]. split; [|done].
           apply elem_of_app. by left.
      * right. exists j, c. split; [congruence|]. split.
        -- apply elem_of_app. right. by left.
        -- apply (basin_inv G c kids p Hkids). by right.
    + intros j0 c0 p Hin Hb. apply elem_of_app in Hin as [Hin|Hin].
      * destruct (Hpre c0 j0 Hin) as [Hj0 _].
        destruct (Hch p) as [Heq|[Hbel Hlab]].
        -- destruct (decide (p = c)) as [->|Hne].
           ++ exists j, c. split; [lia|]. split; [apply elem_of_app; right; by left|].
              split; [apply rtc_refl|done].
           ++ destruct (Hcover j0 c0 p Hin Hb) as (j' & c' & Hle & Hin' & Hb' & Hp).
              exists j', c'. split; [done|]. split; [apply elem_of_app; by left|].
              split; [done|]. by rewrite Heq, list_lookup_insert_ne.
        -- exists j, c. split; [lia|]. split; [apply elem_of_app; right; by left|].
           split; [|done]. apply (basin_inv G c kids p Hkids). by right.
      * apply list_elem_of_singleton in Hin as [= -> ->].
        exists j, c. split; [done|]. split; [apply elem_of_app; right; by left|].
        split; [done|].
        apply (basin_inv G c kids p Hkids) in Hb as [->|Hb]; [done|by apply Hst].
  - split; [by rewrite length_replicate|]. split.
    + intros p l Hp. apply lookup_replicate in Hp as [-> _]. by left.
    + intros j c p Hin. by apply elem_of_nil in Hin.
Qed.

End LabelSoundness.

Lemma assign_cluster_sound_witness :
  ∃ cl, assign_cluster 1000 [0; 1] [1%Z; (-1)%Z] [[]; [0]] = Ret cl ∧
    cl = [1%Z; 1%Z] ∧
    length cl = length [1%Z; (-1)%Z] ∧
    (∀ p l, cl !! p = Some l →
       l = (-1)%Z ∨ ∃ j c, l = Z.of_nat j ∧ [0; 1] !! j = Some c ∧ basin [[]; [0]] c p) ∧
    (∀ j c p, [0; 1] !! j = Some c → basin [[]; [0]] c p →
       ∃ j' c', j ≤ j' ∧ [0; 1] !! j' = Some c' ∧ basin [[]; [0]] c' p ∧
                cl !! p = Some (Z.of_nat j')).
Proof.
  eexists. split; [vm_compute; reflexivity|]. split; [reflexivity|].
  apply (assign_cluster_sound 1000 [0; 1] [1%Z; (-1)%Z] [[]; [0]]).
  vm_compute. reflexivity.
Defined.

(** ** [check_cluster_stability]: ties and accounting *)

Lemma argmax_from_first (best_i : nat) (best : Q) (i : nat) (a : list Q) :
  best_i < i →
  ∃ v, let k := argmax_from best_i best i a in
    ((k = best_i ∧ v = best) ∨ (i ≤ k ∧ a !! (k - i) = Some v)) ∧
    (i ≤ k → (best < v)%Q ∧ ∀ j w, j < k - i → a !! j = Some w → (w < v)%Q).
Proof.
  revert best_i best i. induction a as [|x a IH]; intros best_i best i Hlt; simpl.
  - exists best. split; [by left|]. lia.
  - destruct (Qgtb x best) eqn:Hgt.
    + apply Qgtb_true in Hgt.
      destruct (IH i x (S i)) as (v & Hk & Hfirst); [lia|]. exists v.
      set (k := argmax_from i x (S i) a) in *.
      destruct Hk as [[Hki ->]|[Hk Hv]].
      * split; [right; split; [lia|]; by rewrite Hki, Nat.sub_diag|].
        intros _. split; [done|]. intros j w Hj. lia.
      * destruct (Hfirst Hk) as [Hxv Hmin].
        split; [right; split; [lia|]; by replace (k - i) with (S (k - S i)) by lia|].
        intros _. split; [by eapply Qlt_trans|].
        intros [|j] w Hj; simpl; [by intros [= <-]|]. apply Hmin. lia.
    + apply Qgtb_false in Hgt.
      destruct (IH best_i best (S i)) as (v & Hk & Hfirst); [lia|]. exists v.
      set (k := argmax_from best_i best (S i) a) in *.
      destruct Hk as [[Hki ->]|[Hk Hv]].
      * split; [by left|]. lia.
      * destruct (Hfirst Hk) as [Hbv Hmin].
        split; [right; split; [lia|]; by replace (k - i) with (S (k - S i)) by lia|].
        intros _. split; [done|].
        intros [|j] w Hj; simpl; [|apply Hmin; lia].
        intros [= <-]. by eapply Qle_lt_trans.
Qed.

Lemma np_argmax_first (a : list Q) (k : nat) :
  np_argmax a = Ret k →
  ∃ v, a !! k = Some v ∧ ∀ j w, j < k → a !! j = Some w → (w < v)%Q.
Proof.
  destruct a as [|x a]; simpl; [discriminate|]. intros [= <-].
  destruct (argmax_from_first 0 x 1 a) as (v & Hk & Hfirst); [lia|]. simpl in *.
  set (k := argmax_from 0 x 1 a) in *. exists v.
  destruct Hk as [[-> ->]|[Hk Hv]].
  - split; [done|]. intros j w Hj. lia.
  - destruct (Hfirst Hk) as [Hxv Hmin].
    split; [by replace k with (S (k - 1)) by lia|].
    intros [|j] w Hj; simpl; [by intros [= <-]|]. apply Hmin. lia.
Qed.

Lemma StronglySorted_lookup_le (l : list Z) (i j : nat) (x y : Z) :
  StronglySorted Z.le l → i < j → l !! i = Some x → l !! j = Some y → (x ≤ y)%Z.
Proof.
  intros Hs. revert i j. induction Hs as [|z l Hs IH Hall]; intros i j Hij Hi Hj.
  - by rewrite lookup_nil in Hi.
  - destruct j as [|j]; [lia|]. destruct i as [|i]; simpl in *.
    + injection Hi as <-. eapply (proj1 (Forall_forall _ _) Hall).
      by eapply list_elem_of_lookup_2.
    + eapply (IH i j); [lia|done|done].
Qed.

Lemma np_unique_sorted (a : list Z) : StronglySorted Z.le (np_unique a).
Proof. unfold np_unique. apply (StronglySorted_merge_sort _). Qed.

Section TieBreak.
Variable s : FDC.

(** X6: among the centers whose label occurs in the extended
    neighbourhood, [idx_max] is the densest one of smallest label: every
    such center with a smaller label than [idx_max] is strictly less
    dense. *)
Theorem find_idx_max_tie_break (NH : list nat) (m : nat) :
  recognized s NH →
  find_idx_max s (idx_centers_unmerged s) NH = Ret m →
  ∃ ni l rm, ni ∈ NH ∧ cluster_label s !! ni = Some l ∧
    idx_centers_unmerged s !! Z.to_nat l = Some m ∧ rho s !! m = Some rm ∧
    ∀ ni' l' c r, ni' ∈ NH → cluster_label s !! ni' = Some l' →
      idx_centers_unmerged s !! Z.to_nat l' = Some c → rho s !! c = Some r →
      (l' < l)%Z → (r < rm)%Q.
Proof.
  intros Hrec H. unfold find_idx_max in H.
  apply bind_Ret in H as (labels & Hlabels & H).
  apply bind_Ret in H as (cs & Hcs & H).
  apply bind_Ret in H as (dens & Hdens & H).
  apply bind_Ret in H as (k & Hk & H).
  apply bind_Ret in H as (l & Hl & H).
  apply mapM_Ret in Hlabels. apply take_idx_Z_Ret in Hcs as [_ Hcs].
  apply take_idx_Ret in Hdens. apply np_argmax_first in Hk as (v & Hv & Hfirst).
  apply getitem_Ret in Hl.
  assert (Hl_in : l ∈ np_unique labels) by (by eapply list_elem_of_lookup_2).
  apply (proj1 (elem_of_np_unique _ _)) in Hl_in.
  apply list_elem_of_lookup in Hl_in as [jl Hjl].
  destruct (Forall2_lookup_r _ _ _ _ _ Hlabels Hjl) as (ni & Hni & Hg).
  apply getitem_Ret in Hg.
  assert (Hni_in : ni ∈ NH) by (by eapply list_elem_of_lookup_2).
  destruct (Hrec ni l Hni_in Hg) as [Hl0 _].
  rewrite getitem_Z_nonneg in H by done. apply getitem_Ret in H.
  destruct (Forall2_lookup_r _ _ _ _ _ Hdens Hv) as (c & Hc & Hrc).
  destruct (Forall2_lookup_r _ _ _ _ _ Hcs Hc) as (l0 & Hl0' & Hgc).
  assert (l0 = l) by congruence. subst l0.
  rewrite getitem_Z_nonneg in Hgc by done. apply getitem_Ret in Hgc.
  assert (c = m) by congruence. subst c.
  exists ni, l, v. split; [done|]. split; [done|]. split; [done|]. split; [done|].
  intros ni' l' c r Hni' Hcl' Hc' Hr Hless.
  assert (Hin : l' ∈ np_unique labels).
  { apply elem_of_np_unique.
    apply list_elem_of_lookup in Hni' as [j Hj].
    destruct (Forall2_lookup_l _ _ _ _ _ Hlabels Hj) as (l'' & Hl'' & Hg').
    apply getitem_Ret in Hg'. assert (l'' = l') by congruence. subst l''.
    by eapply list_elem_of_lookup_2. }
  pose proof Hin as Hin'. apply list_elem_of_lookup in Hin' as [j Hj].
  assert (Hjk : j < k).
  { destruct (decide (j < k)) as [|Hge]; [done|]. exfalso.
    destruct (decide (j = k)) as [->|Hne]; [rewrite Hl in Hj; injection Hj as <-; lia|].
    pose proof (StronglySorted_lookup_le _ k j l l' (np_unique_sorted labels)
                  ltac:(lia) Hl Hj). lia. }
  destruct (Forall2_lookup_l _ _ _ _ _ Hcs Hj) as (c' & Hcj & Hgc').
  apply list_elem_of_lookup in Hni' as [jn Hjn].
  assert (Hl'0 : (0 ≤ l')%Z).
  { eapply Hrec; [by eapply list_elem_of_lookup_2|done]. }
  rewrite getitem_Z_nonneg in Hgc' by done. apply getitem_Ret in Hgc'.
  assert (c' = c) by congruence. subst c'.
  destruct (Forall2_lookup_l _ _ _ _ _ Hdens Hcj) as (r' & Hrj & Hr').
  assert (r' = r) by congruence. subst r'.
  by apply (Hfirst j).
Qed.

End TieBreak.

Lemma find_idx_max_tie_break_witness :
  recognized (line4_graph 0) [1; 2] ∧
  find_idx_max (line4_graph 0) (idx_centers_unmerged (line4_graph 0)) [1; 2] = Ret 3 ∧
  ∃ ni l rm, ni ∈ [1; 2] ∧ cluster_label (line4_graph 0) !! ni = Some l ∧
    idx_centers_unmerged (line4_graph 0) !! Z.to_nat l = Some 3 ∧
    rho (line4_graph 0) !! 3 = Some rm ∧
    ∀ ni' l' c r, ni' ∈ [1; 2] → cluster_label (line4_graph 0) !! ni' = Some l' →
      idx_centers_unmerged (line4_graph 0) !! Z.to_nat l' = Some c →
      rho (line4_graph 0) !! c = Some r →
      (l' < l)%Z → (r < rm)%Q.
Proof.
  split; [apply line4_recognized|]. split; [reflexivity|].
  apply (find_idx_max_tie_break (line4_graph 0) [1; 2] 3);
    [apply line4_recognized|reflexivity].
Defined.

Section Accounting.
Variable norm : list Q → Q.

(** X5: a pass that returns accounts for every candidate: the true
    centers are the candidates that were not demoted, in their order, and
    with the false positives they add up to the candidates; the pass
    leaves densities, neighbours, labels and the candidate list as they
    were and the lengths of the three arrays it writes, and with zero
    false positives it has written nothing. *)
Theorem check_cluster_stability_accounting (s s' : FDC) (threshold : Q)
    (centers : list nat) (n_fp : nat) :
  check_cluster_stability norm s threshold = Ret (s', centers, n_fp) →
  centers = filter (λ i, is_kept s threshold i = true) (idx_centers_unmerged s) ∧
  n_fp + length centers = length (idx_centers_unmerged s) ∧
  rho s' = rho s ∧ nn_list s' = nn_list s ∧ cluster_label s' = cluster_label s ∧
  idx_centers_unmerged s' = idx_centers_unmerged s ∧
  length (nn_delta s') = length (nn_delta s) ∧
  length (delta s') = length (delta s) ∧
  length (density_graph s') = length (density_graph s) ∧
  (n_fp = 0 → s' = s).
Proof.
  intros H. apply check_cluster_stability_Ret in H
    as (Hc & Hn & Hview & _ & _ & _ & _ & _ & Hl1 & Hl2 & Hl3 & Hz).
  destruct Hview as (_ & _ & _ & Hrho & Hnn & Hcs & Hcl).
  by repeat split.
Qed.

End Accounting.

Lemma check_cluster_stability_accounting_witness :
  ∃ s',
    check_cluster_stability abs_norm (line4_graph 0) 0 = Ret (s', [3], 1) ∧
    [3] = filter (λ i, is_kept (line4_graph 0) 0 i = true)
                 (idx_centers_unmerged (line4_graph 0)) ∧
    1 + length [3] = length (idx_centers_unmerged (line4_graph 0)) ∧
    rho s' = rho (line4_graph 0) ∧ nn_list s' = nn_list (line4_graph 0) ∧
    cluster_label s' = cluster_label (line4_graph 0) ∧
    idx_centers_unmerged s' = idx_centers_unmerged (line4_graph 0) ∧
    length (nn_delta s') = length (nn_delta (line4_graph 0)) ∧
    length (delta s') = length (delta (line4_graph 0)) ∧
    length (density_graph s') = length (density_graph (line4_graph 0)) ∧
    (1 = 0 → s' = line4_graph 0).
Proof.
  eexists. split; [vm_compute; reflexivity|].
  eapply (check_cluster_stability_accounting abs_norm (line4_graph 0)).
  vm_compute. reflexivity.
Defined.

(** ** The loops stop *)

Lemma np_max_fuel (a : list Q) : np_max a ≠ OutOfFuel.
Proof. by destruct a. Qed.

Lemma np_min_fuel (a : list Q) : np_min a ≠ OutOfFuel.
Proof. by destruct a. Qed.

Section Halting.
Variable norm : list Q → Q.
Variable recursion_limit : nat.

Lemma compute_delta_fuel (s : FDC) : compute_delta norm s ≠ OutOfFuel.
Proof.
  unfold compute_delta. apply bind_fuel.
  - unfold compute_maxdist. apply bind_fuel; [|done]. apply mapM_fuel. intros i.
    unfold extent. apply bind_fuel; [apply mapM_fuel; intros; apply getitem_fuel|].
    intros col. apply bind_fuel; [apply np_max_fuel|]. intros hi.
    apply bind_fuel; [apply np_min_fuel|done].
  - intros maxdist. apply bind_fuel; [|by intros [[? ?] ?]].
    apply foldM_fuel. intros [[dg nnd] dl] i. unfold delta_step.
    apply bind_fuel; [apply getitem_fuel|]. intros row.
    apply bind_fuel; [apply mapM_fuel; intros; apply getitem_fuel|]. intros dens.
    apply bind_fuel.
    { unfold index_greater. apply bind_fuel; [apply getitem_fuel|done]. }
    intros idx. destruct (truthy idx).
    + apply bind_fuel; [apply getitem_fuel|]. intros m.
      apply bind_fuel; [apply getitem_fuel|]. intros kids.
      apply bind_fuel; [apply setitem_fuel|]. intros nnd'.
      apply bind_fuel; [apply getitem_fuel|]. intros drow.
      apply bind_fuel; [apply getitem_fuel|]. intros d.
      apply bind_fuel; [apply setitem_fuel|done].
    + apply bind_fuel; [apply setitem_fuel|done].
Qed.

(** X8: the loops that run until nothing changes stop by themselves:
    the merger at any threshold, [fit] and a coarse-grain sweep over any
    thresholds never exhaust the bound [len(idx_centers) + 1] on the
    rounds of the merger. *)
Theorem merger_halts (s : FDC) (eta_arg : option Q) (noise_range : list Q) :
  check_cluster_stability_fast norm recursion_limit s eta_arg ≠ OutOfFuel ∧
  fit norm recursion_limit s ≠ OutOfFuel ∧
  coarse_grain norm recursion_limit s noise_range ≠ OutOfFuel.
Proof.
  split; [apply check_cluster_stability_fast_fuel|]. split.
  - unfold fit. apply bind_fuel; [apply compute_delta_fuel|]. intros s0.
    apply bind_fuel; [apply assign_cluster_fuel|]. intros cl.
    apply bind_fuel.
    + destruct (merge _); [apply check_cluster_stability_fast_fuel|done].
    + intros s1. destruct (Qgtb _ _); [done|apply check_cluster_stability_fast_fuel].
  - unfold coarse_grain. apply bind_fuel.
    + apply foldM_fuel. intros st nt. unfold coarse_step.
      apply bind_fuel; [apply check_cluster_stability_fast_fuel|].
      intros s0. by destruct (decide _).
    + intros st. apply bind_fuel; [apply getitem_Z_fuel|done].
Qed.

End Halting.

(** X7: the [while True] loop of [find_NH_tree_search] stops by itself
    on every input: [len(rho) + 1] rounds are never exhausted, since a
    round that goes on has put a new point of [0..len(rho)-1] in [NH]. *)
Theorem tree_search_halts (s : FDC) (idx : nat) (eta : Q) (cluster_label : list Z)
    (threshold : Q) :
  find_NH_tree_search s idx eta cluster_label ≠ OutOfFuel ∧
  extended_NH s threshold idx ≠ OutOfFuel.
Proof. split; [apply find_NH_tree_search_fuel|apply extended_NH_fuel]. Qed.

(** ** The sweep over thresholds and [fit] *)

Lemma getitem_Z_last {A} (a : list A) (x : A) :
  getitem_Z a (-1) = Ret x ↔ last a = Some x.
Proof.
  unfold getitem_Z. destruct (decide (0 ≤ -1)%Z) as [?|_]; [lia|].
  destruct a as [|y a].
  - destruct (decide _) as [Hd|_]; [simpl in Hd; lia|]. split; discriminate.
  - destruct (decide _) as [_|Hd]; [|simpl length in Hd; lia].
    rewrite getitem_Ret, last_lookup.
    replace (Z.to_nat (Z.of_nat (length (y :: a)) + -1)) with (pred (length (y :: a)))
      by (simpl length; lia).
    done.
Qed.

Lemma argmin_from_first (pre a : list Q) (best_i : nat) (best : Q) :
  pre !! best_i = Some best →
  (∀ j y, pre !! j = Some y → (best <= y)%Q ∧ (j < best_i → (best < y)%Q)) →
  ∃ m, (pre ++ a) !! argmin_from best_i best (length pre) a = Some m ∧
    ∀ j y, (pre ++ a) !! j = Some y →
      (m <= y)%Q ∧ (j < argmin_from best_i best (length pre) a → (m < y)%Q).
Proof.
  revert pre best_i best. induction a as [|x a IH]; intros pre best_i best Hb Hmin; simpl.
  - rewrite app_nil_r. by exists best.
  - pose proof (lookup_lt_Some _ _ _ Hb) as Hlt.
    replace (pre ++ x :: a) with ((pre ++ [x]) ++ a) by (by rewrite <- app_assoc).
    replace (S (length pre)) with (length (pre ++ [x])) by (rewrite length_app; simpl; lia).
    destruct (Qgtb best x) eqn:Hgt.
    + apply Qgtb_true in Hgt. apply IH.
      * by rewrite lookup_app_r, Nat.sub_diag by lia.
      * intros j y Hj. apply lookup_app_Some in Hj as [Hj|[Hge Hj]].
        -- destruct (Hmin j y Hj) as [Hle _].
           assert (x < y)%Q by (by eapply Qlt_le_trans).
           split; [by apply Qlt_le_weak|done].
        -- apply list_lookup_singleton_Some in Hj as [Hj <-].
           split; [apply Qle_refl|lia].
    + apply Qgtb_false in Hgt. apply IH.
      * by rewrite lookup_app_l.
      * intros j y Hj. apply lookup_app_Some in Hj as [Hj|[Hge Hj]]; [by apply Hmin|].
        apply list_lookup_singleton_Some in Hj as [Hj <-]. split; [done|lia].
Qed.

Lemma np_argmin_first (a : list Q) :
  a ≠ [] →
  ∃ k m, np_argmin a = Ret k ∧ a !! k = Some m ∧
    ∀ j y, a !! j = Some y → (m <= y)%Q ∧ (j < k → (m < y)%Q).
Proof.
  destruct a as [|x a]; [done|]. intros _. simpl.
  destruct (argmin_from_first [x] a 0 x) as (m & Hk & Hmin); [done| |].
  - intros [|j] y; simpl; [|done]. intros [= <-]. split; [apply Qle_refl|lia].
  - simpl in *. by exists (argmin_from 0 x 1 a), m.
Qed.

Section SweepAndFit.
Variable norm : list Q → Q.
Variable recursion_limit : nat.

Lemma coarse_grain_sweep (s : FDC) (noise_range : list Q) (st : coarse) (nt : Q) :
  coarse_grain norm recursion_limit s noise_range = Ret (st, nt) →
  noise_range ≠ [] ∧ last noise_range = Some nt ∧ sweep_inv noise_range st.
Proof.
  unfold coarse_grain. intros H.
  apply bind_Ret in H as (st0 & Hfold & H).
  apply bind_Ret in H as (nt0 & Hnt & H). injection H as <- <-.
  apply getitem_Z_last in Hnt.
  split; [by intros ->|]. split; [done|].
  apply (foldM_prefix_inv sweep_inv) in Hfold; [done| |].
  - intros pre b post x y _ (Hlen & _ & Hmax) Hstep. unfold coarse_step in Hstep.
    apply bind_Ret in Hstep as (s0 & _ & Hstep).
    assert (Hmax' : ∀ q, q = (-1)%Q ∨ q ∈ pre → q = (-1)%Q ∨ q ∈ pre ++ [b]).
    { intros q [?|?]; [by left|right; apply elem_of_app; by left]. }
    destruct (decide _) as [Hd|Hd]; injection Hstep as <-;
      unfold sweep_inv; simpl; rewrite !length_app, last_snoc; simpl.
    + split; [lia|]. split; [done|]. right. apply elem_of_app. right. by left.
    + split; [lia|]. split; [|by apply Hmax']. intros _. split; [|done].
      destruct (decide (length (idx_centers s0) = n_cluster x)); [done|].
      exfalso. by apply Hd.
  - unfold sweep_inv; simpl. split; [done|]. split; [done|]. by left.
Qed.

(** X9: a coarse-grain sweep that returns was given at least one
    threshold and has recorded one level per threshold; its last level
    holds the centers and labels the object is left with, [n_cluster] is
    their number, [noise_threshold] is the last threshold, and
    [max_noise] is -1 or one of the thresholds. *)
Theorem coarse_grain_levels (s : FDC) (noise_range : list Q) (st : coarse) (nt : Q) :
  coarse_grain norm recursion_limit s noise_range = Ret (st, nt) →
  noise_range ≠ [] ∧ last noise_range = Some nt ∧
  length (hierarchy st) = length noise_range ∧
  last (hierarchy st) =
    Some (mkLevel (idx_centers (c_fdc st)) (cluster_label (c_fdc st))) ∧
  n_cluster st = length (idx_centers (c_fdc st)) ∧
  (max_noise st = (-1)%Q ∨ max_noise st ∈ noise_range).
Proof.
  intros H. apply coarse_grain_sweep in H as (Hne & Hnt & Hlen & Hlast & Hmax).
  destruct (Hlast Hne) as [Hn Hl]. by repeat split.
Qed.

Lemma stability_loop_frame (fuel : nat) (s s1 : FDC) (noise : Q) :
  stability_loop norm recursion_limit fuel s noise = Ret s1 →
  rho s1 = rho s ∧ nn_list s1 = nn_list s ∧ X s1 = X s ∧
  (parent_increasing (rho s) (nn_delta s) → parent_increasing (rho s1) (nn_delta s1)).
Proof.
  revert s. induction fuel as [|fuel IH]; intros s H; simpl in H; [discriminate|].
  apply bind_Ret in H as (cl & Hcl & H).
  apply bind_Ret in H as ([[s' centers] n_fp] & Hpass & H).
  pose proof (check_cluster_stability_Ret norm _ _ _ _ _ Hpass)
    as (_ & _ & (_ & _ & HX & Hrho & Hnn & _) & _).
  simpl in HX, Hrho, Hnn.
  assert (Hstep : parent_increasing (rho s) (nn_delta s) →
                  parent_increasing (rho s') (nn_delta s')).
  { intros Hi.
    exact (check_cluster_stability_increasing norm (set_cluster_label s cl) _ _ _ _ Hi Hpass). }
  destruct (decide (n_fp = 0)) as [->|Hne].
  - injection H as <-. simpl. by repeat split.
  - apply IH in H as (H1 & H2 & H3 & H4). simpl in *.
    split; [congruence|]. split; [congruence|]. split; [congruence|].
    intros Hi. apply H4. by apply Hstep.
Qed.



End SweepAndFit.

Lemma coarse_grain_levels_witness :
  ∃ st nt,
    coarse_grain abs_norm 1000 (line4_graph 0) [1%Q; 0%Q] = Ret (st, nt) ∧
    [1%Q; 0%Q] ≠ [] ∧ last [1%Q; 0%Q] = Some nt ∧
    length (hierarchy st) = length [1%Q; 0%Q] ∧
    last (hierarchy st) =
      Some (mkLevel (idx_centers (c_fdc st)) (cluster_label (c_fdc st))) ∧
    n_cluster st = length (idx_centers (c_fdc st)) ∧
    (max_noise st = (-1)%Q ∨ max_noise st ∈ [1%Q; 0%Q]).
Proof.
  eexists. eexists. split; [vm_compute; reflexivity|].
  apply (coarse_grain_levels abs_norm 1000 (line4_graph 0) [1%Q; 0%Q]).
  vm_compute. reflexivity.
Defined.



(** ** The densest center *)

Lemma getitem_Z_elem {A} (a : list A) (l : Z) (x : A) :
  getitem_Z a l = Ret x → x ∈ a.
Proof.
  unfold getitem_Z. intros H.
  destruct (decide _); [|destruct (decide _); [|discriminate]];
    apply getitem_Ret in H; by eapply list_elem_of_lookup_2.
Qed.

Lemma find_idx_max_elem (s : FDC) (cs NH : list nat) (m : nat) :
  find_idx_max s cs NH = Ret m → m ∈ cs.
Proof.
  unfold find_idx_max. intros H.
  apply bind_Ret in H as (labels & _ & H).
  apply bind_Ret in H as (cs' & _ & H).
  apply bind_Ret in H as (dens & _ & H).
  apply bind_Ret in H as (k & _ & H).
  apply bind_Ret in H as (l & _ & H).
  by eapply getitem_Z_elem.
Qed.

Lemma top_center_sublist (rho : list Q) (cs cs' : list nat) (c : nat) :
  cs' `sublist_of` cs → c ∈ cs' → top_center rho cs c → top_center rho cs' c.
Proof.
  intros Hsub Hc (_ & rc & Hrc & Hmax). split; [done|]. exists rc. split; [done|].
  intros c' r' Hc'. apply Hmax. by eapply elem_of_sublist.
Qed.

Section DensestCenter.
Variable norm : list Q → Q.
Variable recursion_limit : nat.

Lemma check_cluster_stability_top (s s' : FDC) (threshold : Q) (centers : list nat)
    (n_fp : nat) (c : nat) :
  check_cluster_stability norm s threshold = Ret (s', centers, n_fp) →
  top_center (rho s) (idx_centers_unmerged s) c → c ∈ centers.
Proof.
  unfold check_cluster_stability. intros H (Hc & rc & Hrc & Hmax).
  apply bind_Ret in H as (st & Hfold & H). injection H as _ <- _.
  refine (foldM_prefix_inv (λ pre st, c ∈ pre → c ∈ idx_true_centers st)
            _ _ _ _ _ _ Hfold Hc); [|by intros ?%elem_of_nil].
  intros pre idx post x y Hsplit IH Hstep Hin.
  assert (Hcase := Hstep).
  apply stability_step_Ret in Hcase as (m & ri & rm & Hv & Hri & Hrm & Hcase).
  assert (Hm : m ∈ idx_centers_unmerged s).
  { unfold verdict in Hv.
    apply bind_Ret in Hv as (NH & _ & Hv). apply bind_Ret in Hv as (m' & Hm' & Hv).
    apply bind_Ret in Hv as (ri' & _ & Hv). apply bind_Ret in Hv as (rm' & _ & Hv).
    injection Hv as -> _. by eapply find_idx_max_elem. }
  destruct Hcase as [(Ht & _ & _ & x_max & x_idx & kids & _ & _ & _ & ->)|(Ht & ->)];
    simpl.
  - apply elem_of_app in Hin as [Hin|Hin]; [by apply IH|].
    apply list_elem_of_singleton in Hin as ->.
    apply demote_test_true in Ht as [Hlt _].
    assert (ri = rc) by congruence. subst ri.
    pose proof (Hmax m rm Hm Hrm) as Hle.
    exfalso. by apply (Qlt_not_le _ _ Hlt).
  - apply elem_of_app in Hin as [Hin|Hin]; apply elem_of_app; [left; by apply IH|by right].
Qed.

Lemma stability_loop_top (fuel : nat) (s s1 : FDC) (noise : Q) (c : nat) :
  stability_loop norm recursion_limit fuel s noise = Ret s1 →
  top_center (rho s) (idx_centers_unmerged s) c →
  top_center (rho s1) (idx_centers s1) c.
Proof.
  revert s. induction fuel as [|fuel IH]; intros s H Htop; simpl in H; [discriminate|].
  apply bind_Ret in H as (cl & Hcl & H).
  apply bind_Ret in H as ([[s' centers] n_fp] & Hpass & H).
  pose proof (check_cluster_stability_Ret norm _ _ _ _ _ Hpass)
    as (Hc & _ & (_ & _ & _ & Hrho & _) & _).
  simpl in Hrho.
  assert (Hin : c ∈ centers) by (by eapply check_cluster_stability_top).
  assert (Htop' : top_center (rho s') centers c).
  { rewrite <- Hrho. eapply top_center_sublist; [|done|exact Htop].
    rewrite Hc. apply sublist_filter. }
  destruct (decide (n_fp = 0)) as [->|Hne].
  - by injection H as <-.
  - by apply IH in H.
Qed.

Lemma top_center_exists (rho : list Q) (cs : list nat) :
  cs ≠ [] → (∀ c, c ∈ cs → is_Some (rho !! c)) → ∃ c, top_center rho cs c.
Proof.
  induction cs as [|c cs IH]; [done|]. intros _ Hdef.
  destruct (Hdef c) as [rc Hrc]; [by left|].
  destruct cs as [|c1 cs].
  { exists c. split; [by left|]. exists rc. split; [done|].
    intros c' r' ->%list_elem_of_singleton Hr'.
    assert (r' = rc) by congruence. subst r'. apply Qle_refl. }
  destruct IH as (m & Hm & rm & Hrm & Hmax); [done|intros c' Hc'; apply Hdef; by right|].
  destruct (Qlt_le_dec rm rc) as [Hlt|Hle].
  - exists c. split; [by left|]. exists rc. split; [done|].
    intros c' r' Hc' Hr'. apply elem_of_cons in Hc' as [->|Hc'].
    + assert (r' = rc) by congruence. subst r'. apply Qle_refl.
    + apply Qle_trans with rm; [by eapply Hmax|by apply Qlt_le_weak].
  - exists m. split; [by right|]. exists rm. split; [done|].
    intros c' r' Hc' Hr'. apply elem_of_cons in Hc' as [->|Hc'].
    + assert (r' = rc) by congruence. by subst r'.
    + by eapply Hmax.
Qed.

Lemma check_cluster_stability_rho (s s' : FDC) (threshold : Q) (centers : list nat)
    (n_fp : nat) (c : nat) :
  check_cluster_stability norm s threshold = Ret (s', centers, n_fp) →
  c ∈ idx_centers_unmerged s → is_Some (rho s !! c).
Proof.
  unfold check_cluster_stability. intros H Hc.
  apply bind_Ret in H as (st & Hfold & _).
  refine (foldM_prefix_inv (λ pre st, c ∈ pre → is_Some (rho s !! c))
            _ _ _ _ _ _ Hfold Hc); [|by intros ?%elem_of_nil].
  intros pre idx post x y _ IH Hstep Hin.
  apply elem_of_app in Hin as [Hin|Hin]; [by apply IH|].
  apply list_elem_of_singleton in Hin as ->.
  apply stability_step_Ret in Hstep as (m & ri & rm & _ & Hri & _). by exists ri.
Qed.

Lemma stability_loop_nonempty (fuel : nat) (s s1 : FDC) (noise : Q) :
  stability_loop norm recursion_limit fuel s noise = Ret s1 →
  idx_centers_unmerged s ≠ [] → idx_centers s1 ≠ [].
Proof.
  intros H Hne.
  assert (Hex : ∃ c, top_center (rho s) (idx_centers_unmerged s) c).
  { apply top_center_exists; [done|]. intros c Hc.
    destruct fuel as [|fuel]; [discriminate|]. simpl in H.
    apply bind_Ret in H as (cl & Hcl & H).
    apply bind_Ret in H as ([[s' centers] n_fp] & Hpass & H).
    by apply (check_cluster_stability_rho _ _ _ _ _ _ Hpass). }
  destruct Hex as [c Htop].
  destruct (stability_loop_top _ _ _ _ _ H Htop) as [Hin _].
  intros Heq. rewrite Heq in Hin. by apply elem_of_nil in Hin.
Qed.

(** X12: merging never removes a center that no other center exceeds in
    density: at any threshold, such a center of [idx_centers_unmerged]
    is among the centers the merger returns, and no other returned
    center exceeds it; so the merger leaves at least one center where
    there was one. *)
Theorem densest_center_survives (s s' : FDC) (eta_arg : option Q) :
  check_cluster_stability_fast norm recursion_limit s eta_arg = Ret s' →
  (∀ c, top_center (rho s) (idx_centers_unmerged s) c →
        top_center (rho s') (idx_centers s') c) ∧
  (idx_centers_unmerged s ≠ [] → idx_centers s' ≠ []).
Proof.
  unfold check_cluster_stability_fast. intros H. split.
  - intros c. by eapply stability_loop_top.
  - by eapply stability_loop_nonempty.
Qed.


End DensestCenter.

Lemma line4_top (e : Q) :
  top_center (rho (line4_graph e)) (idx_centers_unmerged (line4_graph e)) 3.
Proof.
  split; [simpl; set_solver|]. exists 5%Q. split; [reflexivity|].
  intros c' r' Hc' Hr'. simpl in Hc'.
  apply elem_of_cons in Hc' as [->|Hc']; [|apply list_elem_of_singleton in Hc' as ->];
    injection Hr' as <-; discriminate.
Qed.

Lemma densest_center_survives_witness :
  ∃ s', check_cluster_stability_fast abs_norm 1000 (line4_graph 1) (Some 20%Q) = Ret s' ∧
    idx_centers s' = [3] ∧
    (∀ c, top_center (rho (line4_graph 1)) (idx_centers_unmerged (line4_graph 1)) c →
          top_center (rho s') (idx_centers s') c) ∧
    (idx_centers_unmerged (line4_graph 1) ≠ [] → idx_centers s' ≠ []).
Proof.
  eexists. split; [vm_compute; reflexivity|]. split; [reflexivity|].
  apply (densest_center_survives abs_norm 1000 (line4_graph 1) _ (Some 20%Q)).
  vm_compute. reflexivity.
Defined.


(** ** The majority vote *)

Lemma max_from_spec {A} (key : A → nat) (best : A) (items : list A) :
  max_from key best items ∈ best :: items ∧
  ∀ x, x ∈ best :: items → key x ≤ key (max_from key best items).
Proof.
  revert best. induction items as [|y items IH]; intros best; simpl.
  - split; [by left|]. by intros x ->%list_elem_of_singleton.
  - destruct (decide (key best < key y)) as [Hlt|Hge].
    + destruct (IH y) as [Hin Hmax]. split; [by right|].
      intros x Hx. apply elem_of_cons in Hx as [->|Hx]; [|by apply Hmax].
      etrans; [|apply (Hmax y); by left]. lia.
    + destruct (IH best) as [Hin Hmax]. split.
      * apply elem_of_cons in Hin as [->|Hin]; [by left|by do 2 right].
      * intros x Hx. apply elem_of_cons in Hx as [->|Hx]; [apply Hmax; by left|].
        apply elem_of_cons in Hx as [->|Hx]; [|apply Hmax; by right].
        etrans; [|apply (Hmax best); by left]. lia.
Qed.

Lemma list_count_pos (lst : list Z) (x : Z) : x ∈ lst ↔ 0 < list_count lst x.
Proof.
  unfold list_count. induction lst as [|y lst IH]; simpl.
  - split; [by intros ?%elem_of_nil|lia].
  - rewrite filter_cons. destruct (decide (y = x)) as [->|Hne]; simpl.
    + split; [lia|by left].
    + rewrite elem_of_cons, <- IH. naive_solver.
Qed.

Lemma list_count_two (lst : list Z) (x y : Z) :
  x ≠ y → list_count lst x + list_count lst y ≤ length lst.
Proof.
  intros Hne. unfold list_count. induction lst as [|z lst IH]; simpl; [lia|].
  rewrite !filter_cons.
  destruct (decide (z = x)), (decide (z = y)); simpl; try lia; congruence.
Qed.

(** X14: the vote of [most_common], in whatever order [set(lst)] is
    iterated: an empty list raises ValueError; otherwise the result is
    a label of the list that occurs at least as often as every label,
    and a label on more than half of the list is the result. *)
Theorem most_common_majority (set_iter : list Z → list Z) (lst : list Z) :
  (∀ x, x ∈ set_iter lst ↔ x ∈ lst) →
  (lst = [] → most_common set_iter lst = Raise ValueError) ∧
  (lst ≠ [] →
   ∃ y, most_common set_iter lst = Ret y ∧ y ∈ lst ∧
     (∀ z, list_count lst z ≤ list_count lst y) ∧
     (∀ w, length lst < 2 * list_count lst w → w = y)).
Proof.
  intros Hset. unfold most_common. split.
  - intros ->. destruct (set_iter []) as [|x l] eqn:E; [done|].
    exfalso. apply (elem_of_nil x). apply Hset. by left.
  - intros Hne. destruct (set_iter lst) as [|x l] eqn:E.
    { destruct lst as [|z lst]; [done|]. exfalso. apply (elem_of_nil z).
      apply Hset. by left. }
    simpl. destruct (max_from_spec (list_count lst) x l) as [Hin Hmax].
    set (y := max_from (list_count lst) x l) in *.
    assert (Hall : ∀ z, list_count lst z ≤ list_count lst y).
    { intros z. destruct (decide (z ∈ lst)) as [Hz|Hz].
      - apply Hmax. by apply Hset.
      - enough (¬ 0 < list_count lst z) by lia. by rewrite <- list_count_pos. }
    exists y. split; [done|]. split; [by apply Hset|]. split; [done|].
    intros w Hw. destruct (decide (w = y)) as [|Hwy]; [done|].
    pose proof (list_count_two lst w y Hwy). pose proof (Hall w). lia.
Qed.

Lemma most_common_majority_witness :
  (∀ x, x ∈ remove_dups [1; -1; 1]%Z ↔ x ∈ [1; -1; 1]%Z) ∧
  most_common remove_dups [1; -1; 1]%Z = Ret 1%Z ∧
  ([1; -1; 1]%Z ≠ [] →
   ∃ y, most_common remove_dups [1; -1; 1]%Z = Ret y ∧ y ∈ [1; -1; 1]%Z ∧
     (∀ z, list_count [1; -1; 1]%Z z ≤ list_count [1; -1; 1]%Z y) ∧
     (∀ w, length [1; -1; 1]%Z < 2 * list_count [1; -1; 1]%Z w → w = y)).
Proof.
  split; [intros x; apply elem_of_remove_dups|]. split; [reflexivity|].
  apply (most_common_majority remove_dups [1; -1; 1]%Z).
  intros x. apply elem_of_remove_dups.
Defined.
